(** * Population exposed to cyclone wind bands: a model of [standalone-code.py]

    The script is a straight-line pandas/geopandas pipeline.  Every stage is
    embedded as a pure function on the table it reads, returning the table
    it writes:

    - raster → weighted points          ([shapes], [pop_gis]; lines 17-26)
    - units ⋈ points, summed per unit    ([sjoin], [pop_by_adm]; lines 43-56)
    - threshold polygons → bands        ([band_partition]; lines 79-83)
    - units ⋈ bands, area fractions      ([final_data]; lines 99-111)
    - wide result table                 ([assemble]; lines 113-130)

    Geometry.  Polygons are finite unions of closed unit squares of the
    integer lattice (a [gset] of cells); on this class the set operations of
    the geometry library are exact: difference and intersection are the
    cell-wise ones, two polygons "intersect" as soon as two of their closed
    squares share a point, and a point lies in the interior of a polygon
    when every square it belongs to is part of the polygon.

    Areas.  The script measures areas in floating point after a
    reprojection, once for each unit and once for each polygon that the
    overlay builds.  The two measurements are kept apart and abstract (class
    [Measure]): all that is known of them is that a polygon with an
    interior has a positive area.  Nothing bounds the one by the other, so
    that the quotient of line 109 may be any positive number, above 1
    included.  What holds only for areas measured without error is stated
    under the explicit hypothesis [ExactMeasure].

    Numbers.  Raster values and weights are rationals, and so is every
    measured area.  Table columns that pandas stores as floats with missing
    values are [fnum]: a rational, an infinity or NaN; products, quotients
    and the rounding to two decimals are computed on them without
    floating-point error.

    Failures.  A stage that can raise returns a [result].  The script as a
    whole ([run]) raises [ValueError] in two places: at the unpacking of
    line 22 when the raster has no cell that is not masked, and at
    [item()] in lines 79-81 when one of the thresholds 60, 90 and 120 does
    not select exactly one row. *)

From Stdlib Require Import ZArith QArith Qround Lia Lqa List Bool String Permutation Sorted.
From stdpp Require Import base decidable gmap sets list.

Local Open Scope Z_scope.

(** ** Float columns *)

Module Float.

Inductive fnum : Type :=
| Fin (q : Q)
| PInf
| NInf
| NaN.

Definition fnum_eq (x y : fnum) : Prop :=
  match x, y with
  | Fin a, Fin b => (a == b)%Q
  | PInf, PInf | NInf, NInf | NaN, NaN => True
  | _, _ => False
  end.

Definition is_nan (x : fnum) : bool :=
  match x with NaN => true | _ => false end.

(** [x * y] on float columns. *)
Definition fmul (x y : fnum) : fnum :=
  let signed (c : comparison) :=
    match c with Eq => NaN | Gt => PInf | Lt => NInf end in
  match x, y with
  | NaN, _ | _, NaN => NaN
  | Fin a, Fin b => Fin (a * b)
  | Fin a, PInf | PInf, Fin a => signed (a ?= 0)%Q
  | Fin a, NInf | NInf, Fin a => signed (0 ?= a)%Q
  | PInf, PInf | NInf, NInf => PInf
  | PInf, NInf | NInf, PInf => NInf
  end.

(** [x / y] on float columns: numpy division, which never raises; a zero
    divisor gives an infinity, or NaN for [0 / 0]. *)
Definition fdiv (x y : fnum) : fnum :=
  match x, y with
  | NaN, _ | _, NaN => NaN
  | Fin a, Fin b =>
      match (b ?= 0)%Q with
      | Eq => match (a ?= 0)%Q with Eq => NaN | Gt => PInf | Lt => NInf end
      | _ => Fin (a / b)
      end
  | Fin _, (PInf | NInf) => Fin 0
  | PInf, Fin b => match (b ?= 0)%Q with Lt => NInf | _ => PInf end
  | NInf, Fin b => match (b ?= 0)%Q with Lt => PInf | _ => NInf end
  | (PInf | NInf), (PInf | NInf) => NaN
  end.

(** Nearest integer, ties to even. *)
Definition rint (q : Q) : Z :=
  let n := Qfloor q in
  match (q - inject_Z n ?= 1 # 2)%Q with
  | Lt => n
  | Gt => n + 1
  | Eq => if Z.even n then n else n + 1
  end.

(** [x.round(2)] on a rational. *)
Definition round2 (q : Q) : Q := (inject_Z (rint (q * 100)) / 100)%Q.

(** [.round(2)] on a float column: NaN and the infinities are kept. *)
Definition fround2 (x : fnum) : fnum :=
  match x with
  | Fin q => Fin (round2 q)
  | other => other
  end.


End Float.
Import Float.

(** ** Geometry on the integer lattice *)

Module Geo.

(** The closed unit square [[x, x+1] × [y, y+1]]. *)
Definition cell : Type := Z * Z.

Abbreviation geom := (gset cell).

Record point : Type := { px : Q; py : Q }.

(** Lattice coordinates [n] with [n <= q <= n + 1]: one of them, or two
    when [q] lies on a grid line. *)
Definition slots (q : Q) : list Z :=
  let n := Qfloor q in
  if Qeq_bool (inject_Z n) q then [n - 1; n] else [n].

(** The cells whose closed square holds the point. *)
Definition cells_at (p : point) : list cell :=
  x ← slots (px p); y ← slots (py p); [(x, y)].

(** polygon [intersects] point: the point lies in the closed polygon. *)
Definition intersects_point (g : geom) (p : point) : bool :=
  existsb (λ c, bool_decide (c ∈ g)) (cells_at p).

(** polygon [contains] point: the point lies in the interior. *)
Definition contains_point (g : geom) (p : point) : bool :=
  forallb (λ c, bool_decide (c ∈ g)) (cells_at p).

(** The squares sharing at least one point with the square [c]. *)
Definition around (c : cell) : list cell :=
  dx ← [-1; 0; 1]; dy ← [-1; 0; 1]; [(c.1 + dx, c.2 + dy)].

(** polygon [intersects] polygon: the closed sets share a point, which
    includes polygons that only touch along an edge or at a corner. *)
Definition intersects (g h : geom) : bool :=
  existsb (λ c, existsb (λ d, bool_decide (d ∈ h)) (around c)) (elements g).

(** Areas as the script measures them, [GeoSeries.to_crs(8441).area]:
    [area g] for the polygon of a row, [overlap_area g h] for the polygon
    that the overlay builds from the polygons [g] and [h].  Both are
    floating-point results: nothing relates the one to the other, nor the
    area of a polygon to the areas of its parts. *)
Class Measure : Type := {
  area : geom → Q;
  overlap_area : geom → geom → Q;
  area_positive : ∀ g, g ≠ ∅ → (0 < area g)%Q;
  overlap_area_positive : ∀ g h, g ∩ h ≠ ∅ → (0 < overlap_area g h)%Q
}.


(** The measure in which every lattice square has area 1. *)
#[global] Instance cell_count : Measure.
Proof.
  refine {| area := λ g, inject_Z (Z.of_nat (size g));
            overlap_area := λ g h, inject_Z (Z.of_nat (size (g ∩ h))) |}.
  - intros g Hne. change 0%Q with (inject_Z 0). rewrite <- Zlt_Qlt.
    assert (size g ≠ 0%nat) by (by intros ?%size_empty_inv%leibniz_equiv). lia.
  - intros g h Hne. change 0%Q with (inject_Z 0). rewrite <- Zlt_Qlt.
    assert (size (g ∩ h) ≠ 0%nat) by (by intros ?%size_empty_inv%leibniz_equiv). lia.
Defined.


(** Rectangle of cells [x0 <= x < x0 + w], [y0 <= y < y0 + h]. *)
Definition box (x0 y0 : Z) (w h : nat) : geom :=
  list_to_set (x ← seqZ x0 (Z.of_nat w); y ← seqZ y0 (Z.of_nat h); [(x, y)]).

End Geo.
Import Geo.

(** ** Results of stages that can raise *)

Inductive result (A : Type) : Type :=
| Ok (a : A)
| Raise (exn : string).
Arguments Ok {A} a.
Arguments Raise {A} exn.

#[global] Instance result_bind : MBind result :=
  λ A B k r, match r with Ok a => k a | Raise e => Raise e end.

Definition Qsum (l : list Q) : Q := fold_right Qplus 0%Q l.

(** ** Raster to points (lines 17-26) *)

Module Raster.

(** A cell of the masked array that is not masked. *)
Record pixel : Type := { prow : Z; pcol : Z; pval : Q }.

(** [img.transform]: pixel coordinates to geographic coordinates. *)
Record affine : Type := { ta : Q; tb : Q; tc : Q; td : Q; te : Q; tf : Q }.

Definition identity : affine :=
  {| ta := 1; tb := 0; tc := 0; td := 0; te := 1; tf := 0 |}.

Definition transform (t : affine) (col row : Q) : point :=
  {| px := ta t * col + tb t * row + tc t;
     py := td t * col + te t * row + tf t |}.

Definition row_pixels (r : nat) (row : list (option Q)) : list pixel :=
  omap id (imap (λ c v, (λ q, {| prow := Z.of_nat r; pcol := Z.of_nat c; pval := q |}) <$> v) row).

(** [img.read(1, masked=True)]: [None] is a masked (no-data) cell. *)
Definition unmasked (img : list (list (option Q))) : list pixel :=
  concat (imap row_pixels img).

(** Pixels sharing an edge (connectivity 4, the default of [shapes]). *)
Definition adjacent4 (a b : pixel) : bool :=
  Z.abs (prow a - prow b) + Z.abs (pcol a - pcol b) =? 1.

Definition same_value (a b : pixel) : bool := Qeq_bool (pval a) (pval b).

Definition joins (region : list pixel) (p : pixel) : bool :=
  existsb (λ q, adjacent4 q p && same_value q p) region.

(** Flood fill: move into [region] the pixels of [rest] that touch it and
    hold its value, until none is left. *)
Fixpoint grow (fuel : nat) (region rest : list pixel) : list pixel * list pixel :=
  match fuel with
  | O => (region, rest)
  | S n =>
      match List.filter (joins region) rest with
      | [] => (region, rest)
      | near => grow n (region ++ near) (List.filter (λ p, negb (joins region p)) rest)
      end
  end.

Fixpoint shapes_from (fuel : nat) (pixels : list pixel) : list (list pixel * Q) :=
  match fuel, pixels with
  | S n, p :: rest =>
      let '(region, rest') := grow (length rest) [p] rest in
      (region, pval p) :: shapes_from n rest'
  | _, _ => []
  end.

(** [rasterio.features.shapes]: one (shape, value) pair per connected
    region of non-masked cells holding the same value. *)
Definition shapes (img : list (list (option Q))) : list (list pixel * Q) :=
  let pixels := unmasked img in shapes_from (length pixels) pixels.

(** Centroid of a region of equal squares: the mean of their centres. *)
Definition centroid (t : affine) (region : list pixel) : point :=
  let n := inject_Z (Z.of_nat (length region)) in
  transform t
    (Qsum (map (λ p, inject_Z (pcol p) + (1 # 2))%Q region) / n)%Q
    (Qsum (map (λ p, inject_Z (prow p) + (1 # 2))%Q region) / n)%Q.

End Raster.
Import Raster.

(** A row of [pop_gis]: the column is named [Total_population_by_adm2] in
    the script, here [pt_value] to keep it apart from the per-unit total. *)
Record pop_point : Type := { pt_geometry : point; pt_value : Q }.

Definition pop_gis (t : affine) (img : list (list (option Q))) : list pop_point :=
  map (λ s, {| pt_geometry := centroid t s.1; pt_value := s.2 |}) (shapes img).

(** The two sides of mass conservation. *)
Definition total_weight (pts : list pop_point) : Q := Qsum (map pt_value pts).
Definition raster_mass (img : list (list (option Q))) : Q :=
  Qsum (map pval (unmasked img)).

(** ** Population per administrative unit (lines 28-56) *)

(** A row of [adm] after the column selection of lines 31-37; its index is
    its position in the table. *)
Record adm_row : Type := {
  ADM0_EN : string;
  ADM1_EN : string;
  ADM2_PCODE : string;
  ADM2_EN : string;
  adm_geometry : geom
}.

(** A row of [adm_sjoin_pop] after lines 46-49. *)
Record joined_row : Type := {
  j_index_left : nat;
  j_adm : adm_row;
  j_value : Q
}.

(** The rows the join lists for the unit [a] at index [i]: one per point
    that satisfies the predicate against its polygon. *)
Definition block (predicate : geom → point → bool) (pop : list pop_point)
    (i : nat) (a : adm_row) : list joined_row :=
  map (λ p, {| j_index_left := i; j_adm := a; j_value := pt_value p |})
      (List.filter (λ p, predicate (adm_geometry a) (pt_geometry p)) pop).

(** [adm.sjoin(pop_gis, how='inner', predicate=...)]: one row per pair
    (unit, point) that satisfies the predicate, by unit then by point. *)
Definition sjoin (predicate : geom → point → bool)
    (adm : list adm_row) (pop : list pop_point) : list joined_row :=
  concat (imap (block predicate pop) adm).

(** A row of [pop_by_adm] after line 56. *)
Record unit_row : Type := {
  index_left : nat;
  unit_adm : adm_row;
  Total_population_by_adm2 : Q
}.

Definition group (k : nat) (rows : list joined_row) : list joined_row :=
  List.filter (λ r, Nat.eqb (j_index_left r) k) rows.

(** One group: ['first'] on the unit's columns, ['sum'] on the values. *)
Definition aggregate (rows : list joined_row) (k : nat) : option unit_row :=
  match group k rows with
  | [] => None
  | r :: _ =>
      Some {| index_left := k; unit_adm := j_adm r;
              Total_population_by_adm2 := Qsum (map j_value (group k rows)) |}
  end.

(** [groupby('index_left').aggregate(ops)]: the join lists the units in
    increasing index, so the keys come out sorted as pandas has them. *)
Definition groupby_index_left (rows : list joined_row) : list unit_row :=
  omap (aggregate rows) (remove_dups (map j_index_left rows)).

Definition adm_sjoin_pop (adm : list adm_row) (pop : list pop_point) : list joined_row :=
  sjoin intersects_point adm pop.

Definition pop_by_adm (adm : list adm_row) (pop : list pop_point) : list unit_row :=
  groupby_index_left (adm_sjoin_pop adm pop).

(** ** Wind bands (lines 58-83) *)

(** A row of [cyclone_gis] after line 75. *)
Record cyclone_row : Type := { wind_speed : Q; geometry : geom }.

Fixpoint insert_sorted (r : cyclone_row) (t : list cyclone_row) : list cyclone_row :=
  match t with
  | [] => [r]
  | r' :: t' =>
      if Qle_bool (wind_speed r) (wind_speed r') then r :: t
      else r' :: insert_sorted r t'
  end.

(** [cyclone_gis.sort_values('wind_speed')]. *)
Definition sort_values (t : list cyclone_row) : list cyclone_row :=
  fold_right insert_sorted [] t.

(** [cyclone_gis[cyclone_gis.wind_speed == ws].geometry]. *)
Definition geometry_where (ws : Q) (t : list cyclone_row) : list geom :=
  map geometry (List.filter (λ r, Qeq_bool (wind_speed r) ws) t).

(** [Series.item()]: the only element, or a [ValueError]. *)
Definition item (s : list geom) : result geom :=
  match s with
  | [g] => Ok g
  | _ => Raise "ValueError"
  end.

(** [cyclone_gis.loc[cyclone_gis.wind_speed == ws, 'geometry'] = [g]]. *)
Definition set_geometry_where (ws : Q) (g : geom) (t : list cyclone_row) : list cyclone_row :=
  map (λ r, if Qeq_bool (wind_speed r) ws
            then {| wind_speed := wind_speed r; geometry := g |} else r) t.

(** Lines 79-83. *)
Definition band_partition (t : list cyclone_row) : result (list cyclone_row) :=
  poly60 ← item (geometry_where 60 t);
  poly90 ← item (geometry_where 90 t);
  poly120 ← item (geometry_where 120 t);
  let t := set_geometry_where 90 (poly90 ∖ poly120) t in
  let t := set_geometry_where 60 (poly60 ∖ poly90) t in
  Ok t.

(** ** Population per wind band (lines 85-96) *)

(** A row of [pop_by_cyclone] after line 88: the threshold of the band and
    the value of a point the band contains. *)
Record band_joined_row : Type := { b_wind_speed : Q; b_value : Q }.

(** Line 87: [cyclone_gis.sjoin(pop_gis, how='inner', predicate="contains")],
    one row per pair (band, point) with the point inside the band. *)
Definition sjoin_contains (bands : list cyclone_row) (pop : list pop_point) : list band_joined_row :=
  b ← bands; p ← pop;
  if contains_point (geometry b) (pt_geometry p)
  then [ {| b_wind_speed := wind_speed b; b_value := pt_value p |} ]
  else [].

(** The distinct keys of a grouping, in ascending order. *)
Fixpoint insert_key (k : Q) (keys : list Q) : list Q :=
  match keys with
  | [] => [k]
  | k' :: keys' =>
      if Qeq_bool k k' then keys
      else if Qle_bool k k' then k :: keys
      else k' :: insert_key k keys'
  end.

Definition wind_speed_keys (rows : list band_joined_row) : list Q :=
  fold_right insert_key [] (map b_wind_speed rows).

Definition wind_speed_group (k : Q) (rows : list band_joined_row) : list band_joined_row :=
  List.filter (λ r, Qeq_bool (b_wind_speed r) k) rows.

(** Line 90: [groupby('wind_speed').aggregate({...: 'sum'}).round(2)]. *)
Definition groupby_wind_speed (rows : list band_joined_row) : list (Q * Q) :=
  map (λ k, (k, round2 (Qsum (map b_value (wind_speed_group k rows)))))
      (wind_speed_keys rows).

Definition pop_by_cyclone (bands : list cyclone_row) (pop : list pop_point) : list (Q * Q) :=
  groupby_wind_speed (sjoin_contains bands pop).

(** Lines 91-95: the thresholds become column names; a threshold that the
    [rename] does not list keeps its number as name. *)
Definition column_name (k : Q) : string + Q :=
  if Qeq_bool k 60 then inl "Total_people_at_60kmph"%string
  else if Qeq_bool k 90 then inl "Total_people_at_90kmph"%string
  else if Qeq_bool k 120 then inl "Total_people_at_120kmph"%string
  else inr k.

Definition pop_by_cyclone_columns (bands : list cyclone_row) (pop : list pop_point)
    : list ((string + Q) * Q) :=
  map (λ e, (column_name e.1, e.2)) (pop_by_cyclone bands pop).

(** The total of the band of threshold [k] in [pop_by_cyclone]. *)
Definition lookup_band (k : Q) (table : list (Q * Q)) : option Q :=
  snd <$> List.find (λ e, Qeq_bool e.1 k) table.

(** ** Area fractions (lines 98-111) *)

(** A row of [final_data], keyed by [(index_left, wind_speed)]. *)
Record final_row : Type := {
  f_index_left : nat;
  f_wind_speed : Q;
  f_unit : unit_row;
  fraction : fnum
}.

(** A row of [overlay_data], keyed the same way. *)
Record overlay_row : Type := {
  o_index_left : nat;
  o_wind_speed : Q;
  o_geometry : geom;
  overlapping_area : Q
}.

(** Line 99: [sjoin(cyclone_gis, how='inner', predicate='intersects')];
    the [fraction] column does not exist yet and is left at NaN. *)
Definition sjoin_bands (units : list unit_row) (bands : list cyclone_row) : list final_row :=
  u ← units; b ← bands;
  if intersects (adm_geometry (unit_adm u)) (geometry b)
  then [ {| f_index_left := index_left u; f_wind_speed := wind_speed b;
            f_unit := u; fraction := NaN |} ]
  else [].

(** Lines 104-105: [gpd.overlay(..., how='intersection')] keeps the pairs
    whose intersection is a polygon, with that polygon as geometry, and
    line 105 measures it. *)
Definition overlay `{Measure} (units : list unit_row) (bands : list cyclone_row)
    : list overlay_row :=
  u ← units; b ← bands;
  let g := adm_geometry (unit_adm u) ∩ geometry b in
  if decide (g = ∅) then []
  else [ {| o_index_left := index_left u; o_wind_speed := wind_speed b;
            o_geometry := g;
            overlapping_area := overlap_area (adm_geometry (unit_adm u)) (geometry b) |} ].

Definition same_key (i : nat) (ws : Q) (o : overlay_row) : bool :=
  Nat.eqb (o_index_left o) i && Qeq_bool (o_wind_speed o) ws.

(** Line 109: the quotient of two series aligned on the key; a key of
    [final_data] that [overlay_data] lacks gets NaN. *)
Definition aligned_quotient `{Measure} (ov : list overlay_row) (r : final_row) : fnum :=
  match List.find (same_key (f_index_left r) (f_wind_speed r)) ov with
  | Some o => fdiv (Fin (overlapping_area o))
                   (Fin (area (adm_geometry (unit_adm (f_unit r)))))
  | None => NaN
  end.

Definition with_fraction (x : fnum) (r : final_row) : final_row :=
  {| f_index_left := f_index_left r; f_wind_speed := f_wind_speed r;
     f_unit := f_unit r; fraction := x |}.

(** [final_data] after line 109: [fraction] is the area ratio. *)
Definition final_data_ratio `{Measure} (units : list unit_row) (bands : list cyclone_row)
    : list final_row :=
  let ov := overlay units bands in
  map (λ r, with_fraction (aligned_quotient ov r) r) (sjoin_bands units bands).

(** [final_data] after line 111: [fraction] now holds the population of
    the unit attributed to the band. *)
Definition final_data `{Measure} (units : list unit_row) (bands : list cyclone_row)
    : list final_row :=
  map (λ r, with_fraction
              (fmul (fraction r) (Fin (Total_population_by_adm2 (f_unit r)))) r)
      (final_data_ratio units bands).

(** ** Result table (lines 113-130) *)

(** Lines 115-118: [final_data[final_data.wind_speed == ws].fraction], a
    series indexed by [index_left]. *)
Definition band_series (ws : Q) (fd : list final_row) : list (nat * fnum) :=
  map (λ r, (f_index_left r, fraction r))
      (List.filter (λ r, Qeq_bool (f_wind_speed r) ws) fd).

Definition series_lookup (i : nat) (s : list (nat * fnum)) : option fnum :=
  snd <$> List.find (λ e, Nat.eqb e.1 i) s.

(** Lines 119-124: the column starts at NaN and receives the rounded
    series at the labels of the series. *)
Definition people_column (s : list (nat * fnum)) (i : nat) : fnum :=
  match series_lookup i s with
  | Some v => fround2 v
  | None => NaN
  end.

(** Lines 126-128. *)
Definition percent_column (people : fnum) (total : Q) : fnum :=
  fround2 (fmul (fdiv people (Fin total)) (Fin 100)).

(** A row of the table written to the spreadsheet. *)
Record out_row : Type := {
  out_index : nat;
  out_ADM0_EN : string;
  out_ADM1_EN : string;
  out_ADM2_PCODE : string;
  out_ADM2_EN : string;
  out_Total_population_by_adm2 : Q;
  People_at_60kmph : fnum;
  People_at_90kmph : fnum;
  People_at_120kmph : fnum;
  pct_people_at_60kmph : fnum;
  pct_people_at_90kmph : fnum;
  pct_people_at_120kmph : fnum
}.

Definition assemble_row (fd : list final_row) (u : unit_row) : out_row :=
  let total := Total_population_by_adm2 u in
  let p60 := people_column (band_series 60 fd) (index_left u) in
  let p90 := people_column (band_series 90 fd) (index_left u) in
  let p120 := people_column (band_series 120 fd) (index_left u) in
  {| out_index := index_left u;
     out_ADM0_EN := ADM0_EN (unit_adm u);
     out_ADM1_EN := ADM1_EN (unit_adm u);
     out_ADM2_PCODE := ADM2_PCODE (unit_adm u);
     out_ADM2_EN := ADM2_EN (unit_adm u);
     out_Total_population_by_adm2 := total;
     People_at_60kmph := p60;
     People_at_90kmph := p90;
     People_at_120kmph := p120;
     pct_people_at_60kmph := percent_column p60 total;
     pct_people_at_90kmph := percent_column p90 total;
     pct_people_at_120kmph := percent_column p120 total |}.

Definition assemble `{Measure} (units : list unit_row) (bands : list cyclone_row)
    : list out_row :=
  map (assemble_row (final_data units bands)) units.

(** Line 22: the pairs that [shapes] yields are transposed with [zip] and
    unpacked into [gjs_shapes] and [values].  The unpacking into two names
    raises [ValueError] when [shapes] has yielded no pair. *)
Definition unzip_shapes (s : list (list pixel * Q)) : result (list (list pixel) * list Q) :=
  match s with
  | [] => Raise "ValueError"
  | _ => Ok (map fst s, map snd s)
  end.

(** Lines 20-26, the unpacking included: [pop_gis], or the error. *)
Definition sample (t : affine) (img : list (list (option Q))) : result (list pop_point) :=
  unzipped ← unzip_shapes (shapes img);
  Ok (zip_with (λ s v, {| pt_geometry := centroid t s; pt_value := v |})
               unzipped.1 unzipped.2).

(** The script from the loaded inputs to the table it exports. *)
Definition run `{Measure} (t : affine) (img : list (list (option Q)))
    (adm : list adm_row) (cyclone_gis : list cyclone_row) : result (list out_row) :=
  pop ← sample t img;
  let units := pop_by_adm adm pop in
  bands ← band_partition (sort_values cyclone_gis);
  Ok (assemble units bands).

(** The mass the regions of [shapes] stand for: every region counts its
    value once per cell. *)
Definition regions_mass (regions : list (list pixel * Q)) : Q :=
  Qsum (map (λ s, inject_Z (Z.of_nat (length s.1)) * s.2)%Q regions).

(** ** Specification-side notions for the band partition *)

(** The partition in the words of the specification: every polygon of the
    ascending table minus the next-higher one, the highest one unchanged. *)
Fixpoint bands_spec (t : list cyclone_row) : list cyclone_row :=
  match t with
  | r :: ((r' :: _) as t') =>
      {| wind_speed := wind_speed r; geometry := geometry r ∖ geometry r' |} :: bands_spec t'
  | _ => t
  end.

#[global] Instance Qlt_decision (a b : Q) : Decision (a < b)%Q :=
  match Qlt_le_dec a b with
  | left H => left H
  | right H => right (Qle_not_lt _ _ H)
  end.

(** Every polygon of a higher threshold lies within every polygon of a
    lower threshold. *)
Definition nested (t : list cyclone_row) : Prop :=
  Forall (λ r, Forall (λ r',
    (wind_speed r < wind_speed r')%Q → geometry r' ⊆ geometry r) t) t.

(** No two bands share a square. *)
Fixpoint pairwise_disjoint (bands : list cyclone_row) : Prop :=
  match bands with
  | [] => True
  | b :: bands' => Forall (λ b', geometry b ∩ geometry b' = ∅) bands' ∧ pairwise_disjoint bands'
  end.

#[global] Instance nested_dec (t : list cyclone_row) : Decision (nested t).
Proof. unfold nested. apply _. Defined.

#[global] Instance pairwise_disjoint_dec (bands : list cyclone_row) : Decision (pairwise_disjoint bands).
Proof. induction bands as [|b bands IH]; simpl; apply _. Defined.

(** The thresholds of the table are 60, 90 and 120, in this order. *)
Definition thresholds_60_90_120 (t : list cyclone_row) : Prop :=
  Forall2 Qeq (map wind_speed t) [60%Q; 90%Q; 120%Q].

(** The threshold [ws] selects exactly one row. *)
Definition single (ws : Q) (t : list cyclone_row) : Prop :=
  length (geometry_where ws t) = 1%nat.

(** The polygon of the lowest threshold of an ascending table. *)
Definition lowest (t : list cyclone_row) : geom :=
  from_option geometry ∅ (head t).

(** ** Specification-side notions for the aggregation *)

(** The sum of the weights of exactly the points that satisfy the
    predicate against the polygon. *)
Definition matching_weight (predicate : geom → point → bool)
    (g : geom) (pop : list pop_point) : Q :=
  Qsum (pt_value <$> List.filter (λ p, predicate g (pt_geometry p)) pop).

Definition has_match (predicate : geom → point → bool)
    (g : geom) (pop : list pop_point) : bool :=
  existsb (λ p, predicate g (pt_geometry p)) pop.

(** The row that the aggregation gives the unit [a] at index [i], if any:
    the unit's own columns and the sum of its matching weights. *)
Definition unit_total_row (predicate : geom → point → bool) (pop : list pop_point)
    (i : nat) (a : adm_row) : option unit_row :=
  if has_match predicate (adm_geometry a) pop
  then Some {| index_left := i; unit_adm := a;
               Total_population_by_adm2 := matching_weight predicate (adm_geometry a) pop |}
  else None.

(** In how many units' polygons the point is found. *)
Definition matches (predicate : geom → point → bool) (adm : list adm_row) (p : pop_point) : nat :=
  length (List.filter (λ a, predicate (adm_geometry a) (pt_geometry p)) adm).

(** The row of a unit in [pop_by_adm], by its label. *)
Definition lookup_unit (i : nat) (units : list unit_row) : option unit_row :=
  List.find (λ u, Nat.eqb (index_left u) i) units.

(** ** Specification-side notions for the apportionment *)

(** The population of unit [i] attributed to the band of threshold [ws],
    as [final_data] holds it after line 111, before any rounding; NaN when
    [final_data] has no record for the pair. *)
Definition population_at_band (ws : Q) (fd : list final_row) (i : nat) : fnum :=
  from_option id NaN (series_lookup i (band_series ws fd)).

(** The area ratio of a unit and a band: NaN when the polygons share no
    square. *)
Definition ratio `{Measure} (u : unit_row) (b : cyclone_row) : fnum :=
  let g := adm_geometry (unit_adm u) ∩ geometry b in
  if decide (g = ∅) then NaN
  else fdiv (Fin (overlap_area (adm_geometry (unit_adm u)) (geometry b)))
            (Fin (area (adm_geometry (unit_adm u)))).


(** The population of a unit that falls to a band of polygon [g], as the
    table stores it: unset when the unit and the band share no area, and
    else the unit's total times the measured area of the overlap over the
    measured area of the unit, rounded to two decimals. *)
Definition stored_share `{Measure} (g : geom) (u : unit_row) : fnum :=
  let part := adm_geometry (unit_adm u) ∩ g in
  if decide (part = ∅) then NaN
  else Fin (round2 (overlap_area (adm_geometry (unit_adm u)) g
                    / area (adm_geometry (unit_adm u))
                    * Total_population_by_adm2 u)).

(** What a record contributes to a sum: an unset value counts for 0. *)
Definition exposure (x : fnum) : Q :=
  match x with Fin q => q | _ => 0%Q end.

(** The population of unit [i] summed over all the bands that intersect
    it, that is over all its records of [final_data]. *)
Definition exposed_total (fd : list final_row) (i : nat) : Q :=
  Qsum (map (λ r, exposure (fraction r))
            (List.filter (λ r, Nat.eqb (f_index_left r) i) fd)).


(** The percentage in the words of the specification: the unrounded
    population of the band over the total, times 100, rounded once. *)
Definition percent_spec (unrounded : fnum) (total : Q) : fnum :=
  fround2 (fmul (fdiv unrounded (Fin total)) (Fin 100)).

(** ** Concrete tables *)

Module Tables.

Definition row (ws : Q) (g : geom) : cyclone_row :=
  {| wind_speed := ws; geometry := g |}.

(** Two nested thresholds, 60 around 120. *)
Definition two_thresholds : list cyclone_row :=
  [row 60 (box 0 0 3 3); row 120 (box 1 1 1 1)].

(** The three thresholds of the script, nested. *)
Definition three_nested : list cyclone_row :=
  [row 60 (box 0 0 4 1); row 90 (box 0 0 2 1); row 120 (box 0 0 1 1)].

(** A fourth, lower threshold around them. *)
Definition four_nested : list cyclone_row :=
  row 30 (box 0 0 5 1) :: three_nested.

(** The polygons of 90 and 120 coincide: their difference is empty. *)
Definition degenerate : list cyclone_row :=
  [row 60 (box 0 0 2 1); row 90 (box 0 0 1 1); row 120 (box 0 0 1 1)].

(** The polygon of 120 sticks out of the polygon of 90. *)
Definition not_nested : list cyclone_row :=
  [row 60 (box 0 0 4 1); row 90 (box 0 0 1 1); row 120 (box 3 0 1 1)].


Definition unit_at (code : string) (g : geom) : adm_row :=
  {| ADM0_EN := "Madagascar"; ADM1_EN := "Region"; ADM2_PCODE := code;
     ADM2_EN := code; adm_geometry := g |}.

(** A 2×2 raster without no-data cells. *)
Definition raster_A : list (list (option Q)) :=
  [[Some 10%Q; Some 20%Q]; [Some 30%Q; Some 40%Q]].

(** One unit over the full extent of [raster_A], one far away from it. *)
Definition full_extent : adm_row := unit_at "MG01" (box 0 0 2 2).
Definition far_away : adm_row := unit_at "MG02" (box 7 7 1 1).

(** A single cell holding 0.004 people, and one holding nobody. *)
Definition raster_tiny : list (list (option Q)) := [[Some (4 # 1000)%Q]].

(** A unit of one square, the one the polygon of 120 of [three_nested]
    covers. *)
Definition one_square : adm_row := unit_at "MG03" (box 0 0 1 1).


(** Two equal neighbours in a row. *)
Definition raster_pair : list (list (option Q)) := [[Some 5%Q; Some 5%Q]].


(** A measurement that reports every overlay polygon one thousandth too
    large. *)
Definition overmeasured : Measure.
Proof.
  refine {| area := λ g, inject_Z (Z.of_nat (size g));
            overlap_area := λ g h, ((1001 # 1000) * inject_Z (Z.of_nat (size (g ∩ h))))%Q |}.
  - intros g Hne. change 0%Q with (inject_Z 0). rewrite <- Zlt_Qlt.
    assert (size g ≠ 0%nat) by (by intros ?%size_empty_inv%leibniz_equiv). lia.
  - intros g h Hne.
    assert (0 < inject_Z (Z.of_nat (size (g ∩ h))))%Q as Hpos.
    { change 0%Q with (inject_Z 0). rewrite <- Zlt_Qlt.
      assert (size (g ∩ h) ≠ 0%nat) by (by intros ?%size_empty_inv%leibniz_equiv). lia. }
    revert Hpos. generalize (inject_Z (Z.of_nat (size (g ∩ h)))). intros q Hq. lra.
Defined.

End Tables.

(** * Verification *)

(** ** Sanity checks of the model *)

Example intersects_touching :
  intersects (box 0 0 1 1) (box 1 0 1 1) = true /\
  box 0 0 1 1 ∩ box 1 0 1 1 = (∅ : geom).
Proof. split; vm_compute; reflexivity. Qed.

(** A point on the edge of a polygon intersects it and is not contained
    in it; a point inside is both. *)
Example boundary_point :
  let edge := {| px := 1; py := 1 # 2 |} in
  let inside := {| px := 1 # 2; py := 1 # 2 |} in
  intersects_point (box 0 0 1 1) edge = true ∧
  contains_point (box 0 0 1 1) edge = false ∧
  intersects_point (box 0 0 1 1) inside = true ∧
  contains_point (box 0 0 1 1) inside = true.
Proof. repeat split; vm_compute; reflexivity. Qed.

Example round2_half_even :
  (round2 (5 # 1000) == 0 /\ round2 (15 # 1000) == 2 # 100 /\ round2 (336 # 1000) == 34 # 100)%Q.
Proof. repeat split; vm_compute; reflexivity. Qed.

Example shapes_2x2 :
  map (λ s, (length s.1, s.2)) (shapes [[Some 10%Q; Some 20%Q]; [Some 30%Q; Some 40%Q]])
  = [(1%nat, 10%Q); (1%nat, 20%Q); (1%nat, 30%Q); (1%nat, 40%Q)].
Proof. reflexivity. Qed.

Example shapes_merge_L :
  map (λ s, (length s.1, s.2)) (shapes [[Some 7%Q; Some 7%Q]; [None; Some 7%Q]; [Some 7%Q; Some 3%Q]])
  = [(3%nat, 7%Q); (1%nat, 7%Q); (1%nat, 3%Q)].
Proof. reflexivity. Qed.

(** ** The band partition *)

Section BandPartition.

Local Open Scope Q_scope.

Lemma Qeq_bool_proper (a b c : Q) : a == b → Qeq_bool a c = Qeq_bool b c.
Proof.
  intros Hab. destruct (Qeq_bool b c) eqn:E.
  - apply Qeq_bool_iff. apply Qeq_bool_iff in E. by rewrite Hab.
  - destruct (Qeq_bool a c) eqn:E'; [|done].
    apply Qeq_bool_iff in E'. rewrite Hab in E'.
    apply Qeq_bool_iff in E'. congruence.
Qed.

Lemma Qeq_bool_known (a b c : Q) (d : bool) :
  a == b → Qeq_bool b c = d → Qeq_bool a c = d.
Proof. intros Hab <-. by apply Qeq_bool_proper. Qed.

Lemma item_Ok (s : list geom) (g : geom) : item s = Ok g ↔ s = [g].
Proof.
  destruct s as [|g' [|]]; simpl; split; intros H; try discriminate; congruence.
Qed.


Lemma item_Raise (s : list geom) (e : string) :
  item s = Raise e → e = "ValueError"%string ∧ length s ≠ 1%nat.
Proof. destruct s as [|g [|]]; simpl; intros H; inversion H; auto. Qed.

Lemma set_geometry_where_length ws g t :
  length (set_geometry_where ws g t) = length t.
Proof. unfold set_geometry_where. by rewrite length_map. Qed.

(** What [band_partition] returns, when it returns. *)
Lemma band_partition_Ok (t bands : list cyclone_row) :
  band_partition t = Ok bands ↔
  ∃ poly60 poly90 poly120,
    geometry_where 60 t = [poly60] ∧ geometry_where 90 t = [poly90] ∧
    geometry_where 120 t = [poly120] ∧
    bands = set_geometry_where 60 (poly60 ∖ poly90)
              (set_geometry_where 90 (poly90 ∖ poly120) t).
Proof.
  unfold band_partition. split.
  - destruct (item (geometry_where 60 t)) as [p60|] eqn:E60; [|done].
    destruct (item (geometry_where 90 t)) as [p90|] eqn:E90; [|done].
    destruct (item (geometry_where 120 t)) as [p120|] eqn:E120; [|done].
    cbn. intros [= <-]. exists p60, p90, p120.
    apply item_Ok in E60, E90, E120. auto.
  - intros (p60 & p90 & p120 & -> & -> & -> & ->). reflexivity.
Qed.


Lemma band_partition_Raise (t : list cyclone_row) (e : string) :
  band_partition t = Raise e →
  e = "ValueError"%string ∧ ¬ (single 60 t ∧ single 90 t ∧ single 120 t).
Proof.
  unfold band_partition, single.
  destruct (item (geometry_where 60 t)) as [p60|] eqn:E60.
  2:{ cbn. intros [= Hx]. subst e. apply item_Raise in E60 as [? ?]. tauto. }
  destruct (item (geometry_where 90 t)) as [p90|] eqn:E90.
  2:{ cbn. intros [= Hx]. subst e. apply item_Raise in E90 as [? ?]. tauto. }
  destruct (item (geometry_where 120 t)) as [p120|] eqn:E120.
  2:{ cbn. intros [= Hx]. subst e. apply item_Raise in E120 as [? ?]. tauto. }
  cbn. discriminate.
Qed.

(** Three thresholds that each select a row need three rows. *)
Lemma singles_length (t : list cyclone_row) :
  single 60 t → single 90 t → single 120 t → (3 <= length t)%nat.
Proof.
  unfold single, geometry_where. rewrite !length_map.
  assert (length (List.filter (λ r, Qeq_bool (wind_speed r) 60) t)
          + length (List.filter (λ r, Qeq_bool (wind_speed r) 90) t)
          + length (List.filter (λ r, Qeq_bool (wind_speed r) 120) t)
          <= length t)%nat as Hsum; [|lia].
  induction t as [|r t IH]; simpl; [lia|].
  destruct (Qeq_bool (wind_speed r) 60) eqn:E60,
           (Qeq_bool (wind_speed r) 90) eqn:E90,
           (Qeq_bool (wind_speed r) 120) eqn:E120; simpl; try lia;
    repeat match goal with
           | H : Qeq_bool _ _ = true |- _ => apply Qeq_bool_iff in H
           end;
    exfalso.
  - rewrite E60 in E90. discriminate.
  - rewrite E60 in E90. discriminate.
  - rewrite E60 in E120. discriminate.
  - rewrite E90 in E120. discriminate.
Qed.

Lemma thresholds_rows (t : list cyclone_row) :
  thresholds_60_90_120 t →
  ∃ r60 r90 r120, t = [r60; r90; r120] ∧
    wind_speed r60 == 60 ∧ wind_speed r90 == 90 ∧ wind_speed r120 == 120.
Proof.
  unfold thresholds_60_90_120. intros H.
  destruct t as [|r1 [|r2 [|r3 [|r4 t]]]]; simpl in H;
    repeat match goal with
           | H : Forall2 _ _ _ |- _ => inversion H; clear H; subst
           end.
  eauto 10.
Qed.

(** On a table with exactly the three thresholds the script is written
    for, the bands are the three differences. *)
Lemma band_partition_three (r60 r90 r120 : cyclone_row) :
  wind_speed r60 == 60 → wind_speed r90 == 90 → wind_speed r120 == 120 →
  band_partition [r60; r90; r120] =
  Ok [ {| wind_speed := wind_speed r60; geometry := geometry r60 ∖ geometry r90 |};
       {| wind_speed := wind_speed r90; geometry := geometry r90 ∖ geometry r120 |};
       r120 ].
Proof.
  intros H60 H90 H120.
  pose proof (Qeq_bool_known _ _ 60 true H60 eq_refl) as A1.
  pose proof (Qeq_bool_known _ _ 90 false H60 eq_refl) as A2.
  pose proof (Qeq_bool_known _ _ 120 false H60 eq_refl) as A3.
  pose proof (Qeq_bool_known _ _ 60 false H90 eq_refl) as B1.
  pose proof (Qeq_bool_known _ _ 90 true H90 eq_refl) as B2.
  pose proof (Qeq_bool_known _ _ 120 false H90 eq_refl) as B3.
  pose proof (Qeq_bool_known _ _ 60 false H120 eq_refl) as C1.
  pose proof (Qeq_bool_known _ _ 90 false H120 eq_refl) as C2.
  pose proof (Qeq_bool_known _ _ 120 true H120 eq_refl) as C3.
  unfold band_partition, geometry_where, set_geometry_where.
  repeat (progress (cbn; rewrite ?A1, ?A2, ?A3, ?B1, ?B2, ?B3, ?C1, ?C2, ?C3)).
  reflexivity.
Qed.

Lemma filter_singleton_elem {A} (q : A → bool) (l : list A) (x : A) :
  List.filter q l = [x] → x ∈ l ∧ q x = true.
Proof.
  intros Hf. assert (In x (List.filter q l)) as Hin by (rewrite Hf; by left).
  apply filter_In in Hin as [Hin Hq]. split; [by apply list_elem_of_In|done].
Qed.

Lemma filter_set_geometry_where (w w' : Q) (g : geom) (t : list cyclone_row) :
  List.filter (λ r, Qeq_bool (wind_speed r) w) (set_geometry_where w' g t) =
  map (λ r, if Qeq_bool (wind_speed r) w'
            then {| wind_speed := wind_speed r; geometry := g |} else r)
      (List.filter (λ r, Qeq_bool (wind_speed r) w) t).
Proof.
  induction t as [|r t IH]; simpl; [done|].
  destruct (Qeq_bool (wind_speed r) w') eqn:E'; simpl;
    destruct (Qeq_bool (wind_speed r) w) eqn:E; simpl; rewrite ?E'; by rewrite IH.
Qed.

Lemma geometry_where_row (ws : Q) (t : list cyclone_row) (g : geom) :
  geometry_where ws t = [g] →
  ∃ r, List.filter (λ r, Qeq_bool (wind_speed r) ws) t = [r] ∧ geometry r = g ∧
       r ∈ t ∧ (wind_speed r == ws)%Q.
Proof.
  unfold geometry_where. intros H.
  destruct (List.filter _ t) as [|r [|]] eqn:E; simpl in H; try discriminate.
  injection H as <-. exists r. split; [done|]. split; [done|].
  apply filter_singleton_elem in E as [Hin Hq]. by apply Qeq_bool_iff in Hq.
Qed.

(** After the partition the three thresholds select the three
    differences. *)
Lemma band_partition_geometry_where (t : list cyclone_row) (poly60 poly90 poly120 : geom) :
  geometry_where 60 t = [poly60] →
  geometry_where 90 t = [poly90] →
  geometry_where 120 t = [poly120] →
  ∃ bands, band_partition t = Ok bands ∧
    geometry_where 60 bands = [poly60 ∖ poly90] ∧
    geometry_where 90 bands = [poly90 ∖ poly120] ∧
    geometry_where 120 bands = [poly120].
Proof.
  intros E60 E90 E120. eexists. split.
  { apply band_partition_Ok. by exists poly60, poly90, poly120. }
  apply geometry_where_row in E60 as (r60 & F60 & <- & _ & H60).
  apply geometry_where_row in E90 as (r90 & F90 & <- & _ & H90).
  apply geometry_where_row in E120 as (r120 & F120 & <- & _ & H120).
  unfold geometry_where. rewrite !filter_set_geometry_where, F60, F90, F120. simpl.
  rewrite (Qeq_bool_known _ _ 90 false H60 eq_refl), (Qeq_bool_known _ _ 90 true H90 eq_refl),
    (Qeq_bool_known _ _ 90 false H120 eq_refl). simpl.
  rewrite (Qeq_bool_known _ _ 60 true H60 eq_refl), (Qeq_bool_known _ _ 60 false H90 eq_refl),
    (Qeq_bool_known _ _ 60 false H120 eq_refl). done.
Qed.

End BandPartition.

(** ** Claims on the band partition *)

Section BandClaims.

Import Tables.

Lemma thresholds_three_nested : thresholds_60_90_120 three_nested.
Proof. repeat constructor. Qed.

Lemma thresholds_degenerate : thresholds_60_90_120 degenerate.
Proof. repeat constructor. Qed.

Lemma bands_spec_three (r60 r90 r120 : cyclone_row) :
  bands_spec [r60; r90; r120] =
  [ {| wind_speed := wind_speed r60; geometry := geometry r60 ∖ geometry r90 |};
    {| wind_speed := wind_speed r90; geometry := geometry r90 ∖ geometry r120 |};
    r120 ].
Proof. reflexivity. Qed.

(** C2, as stated, fails: on the ascending table with the two nested
    thresholds 60 and 120 the script returns no band at all, because it
    looks up the threshold 90 by name. *)
Lemma band_partition_two_thresholds_fails :
  ¬ (sort_values two_thresholds = two_thresholds →
     band_partition two_thresholds = Ok (bands_spec two_thresholds)).
Proof.
  intros H.
  assert (sort_values two_thresholds = two_thresholds) as Hs by reflexivity.
  specialize (H Hs).
  assert (band_partition two_thresholds = Raise "ValueError") as Hr by reflexivity.
  rewrite Hr in H. discriminate.
Qed.

(** With a fourth threshold above 120 the band of 120 is not reduced. *)
Example band_partition_fourth_threshold :
  let t := three_nested ++ [row 150 ∅] in
  band_partition t = Ok (bands_spec three_nested ++ [row 150 ∅]).
Proof. vm_compute. reflexivity. Qed.

(** C2, amended: on a table whose thresholds are 60, 90 and 120 the script
    returns one band per threshold, each polygon minus the next-higher one
    and the polygon of 120 unchanged. *)
Theorem band_partition_refines_spec (t : list cyclone_row) :
  thresholds_60_90_120 t → band_partition t = Ok (bands_spec t).
Proof.
  intros Ht.
  destruct (thresholds_rows t Ht) as (r60 & r90 & r120 & -> & H60 & H90 & H120).
  rewrite bands_spec_three. by apply band_partition_three.
Qed.

Lemma band_partition_refines_spec_witness :
  thresholds_60_90_120 three_nested ∧
  band_partition three_nested = Ok (bands_spec three_nested).
Proof.
  split.
  - exact thresholds_three_nested.
  - apply (band_partition_refines_spec three_nested). exact thresholds_three_nested.
Defined.

(** C3, as stated, fails: four nested thresholds 30, 60, 90, 120 give
    bands that overlap, the band of 30 being its whole polygon. *)
Lemma band_partition_four_overlap :
  ¬ (nested four_nested →
     ∀ bands, band_partition four_nested = Ok bands →
       pairwise_disjoint bands ∧ ⋃ (geometry <$> bands) = lowest four_nested).
Proof.
  intros H.
  assert (nested four_nested) as Hn.
  { apply (bool_decide_unpack _). vm_compute. exact I. }
  destruct (H Hn _ eq_refl) as [Hd _].
  revert Hd. apply (bool_decide_eq_false_1 _). vm_compute. reflexivity.
Qed.

(** C3, amended: on a nested table whose thresholds are 60, 90 and 120, no
    two bands share a square and the bands together make up the polygon
    of 60. *)
Theorem band_partition_disjoint_cover (t : list cyclone_row) :
  thresholds_60_90_120 t → nested t →
  ∃ bands, band_partition t = Ok bands ∧
    pairwise_disjoint bands ∧ ⋃ (geometry <$> bands) = lowest t.
Proof.
  intros Ht Hn.
  destruct (thresholds_rows t Ht) as (r60 & r90 & r120 & -> & H60 & H90 & H120).
  eexists. split; [by apply band_partition_three|].
  assert (geometry r120 ⊆ geometry r90 ∧ geometry r90 ⊆ geometry r60) as [Ha Hb].
  { unfold nested in Hn. rewrite !Forall_cons in Hn.
    destruct Hn as ((_ & H1 & _ & _) & (_ & _ & H2 & _) & _).
    split; [apply H2|apply H1]; rewrite ?H60, ?H90, ?H120; reflexivity. }
  cbn. split.
  - repeat split; repeat constructor; cbn; set_solver.
  - apply set_eq. intros x. set_unfold.
    destruct (decide (x ∈ geometry r90)), (decide (x ∈ geometry r120)); naive_solver.
Qed.

Lemma band_partition_disjoint_cover_witness :
  thresholds_60_90_120 three_nested ∧ nested three_nested ∧
  ∃ bands, band_partition three_nested = Ok bands ∧
    pairwise_disjoint bands ∧ ⋃ (geometry <$> bands) = lowest three_nested.
Proof.
  assert (nested three_nested) as Hn.
  { apply (bool_decide_unpack _). vm_compute. exact I. }
  split; [exact thresholds_three_nested|]. split; [exact Hn|].
  exact (band_partition_disjoint_cover three_nested thresholds_three_nested Hn).
Defined.

(** C8, as stated, fails: with a single threshold the error is the
    [ValueError] of [item], not a dedicated one; and where the difference
    of the polygons of 90 and 120 is empty nothing is raised: the band set
    comes back, with an empty band in it. *)
Lemma band_partition_no_dedicated_errors :
  ((length [row 60 (box 0 0 1 1)] < 2)%nat ∧
   band_partition [row 60 (box 0 0 1 1)] ≠ Raise "InsufficientBandsError") ∧
  (box 0 0 1 1 ∖ box 0 0 1 1 = (∅ : geom) ∧
   band_partition degenerate ≠ Raise "DegenerateGeometryError" ∧
   ∃ bands, band_partition degenerate = Ok bands ∧ row 90 ∅ ∈ bands).
Proof.
  split; [split|split; [|split]].
  - simpl. lia.
  - assert (band_partition [row 60 (box 0 0 1 1)] = Raise "ValueError") as -> by reflexivity.
    discriminate.
  - vm_compute. reflexivity.
  - assert (band_partition degenerate =
            Ok [row 60 (box 1 0 1 1); row 90 ∅; row 120 (box 0 0 1 1)]) as ->
      by (vm_compute; reflexivity).
    discriminate.
  - exists [row 60 (box 1 0 1 1); row 90 ∅; row 120 (box 0 0 1 1)].
    split; [vm_compute; reflexivity|]. apply list_elem_of_further, list_elem_of_here.
Qed.

Example band_partition_degenerate :
  band_partition degenerate =
  Ok [row 60 (box 1 0 1 1); row 90 ∅; row 120 (box 0 0 1 1)].
Proof. vm_compute. reflexivity. Qed.

Lemma single_geometry (ws : Q) (t : list cyclone_row) :
  single ws t ↔ ∃ g, geometry_where ws t = [g].
Proof.
  unfold single. split.
  - destruct (geometry_where ws t) as [|g [|]]; simpl; intros; try discriminate; eauto.
  - by intros [g ->].
Qed.

(** A row of threshold [ws] with the empty polygon is in the table when
    [ws] selects only the empty polygon. *)
Lemma geometry_where_empty_row (ws : Q) (bands : list cyclone_row) :
  geometry_where ws bands = [∅] →
  ∃ b, b ∈ bands ∧ (wind_speed b == ws)%Q ∧ geometry b = ∅.
Proof.
  intros H. apply geometry_where_row in H as (b & _ & Hg & Hb & Hws). eauto.
Qed.

(** C8, amended.  The stage raises [ValueError], the error of [item], and
    returns no band set, whenever one of the thresholds 60, 90 and 120
    does not select exactly one row, in particular on every table of
    fewer than three rows; it raises no other error, and raises only in
    that case.  When each of the three thresholds selects one row it
    returns a band set with a row per row of the table, in which the
    three thresholds select the differences of the polygons; a
    difference that is empty raises nothing, and the band set then holds
    a row with the empty polygon. *)
Theorem band_partition_failure (t : list cyclone_row) :
  (¬ (single 60 t ∧ single 90 t ∧ single 120 t) →
   band_partition t = Raise "ValueError") ∧
  ((length t < 3)%nat → band_partition t = Raise "ValueError") ∧
  (∀ e, band_partition t = Raise e →
     e = "ValueError"%string ∧ ¬ (single 60 t ∧ single 90 t ∧ single 120 t)) ∧
  (single 60 t → single 90 t → single 120 t →
   ∃ poly60 poly90 poly120 bands,
     geometry_where 60 t = [poly60] ∧
     geometry_where 90 t = [poly90] ∧
     geometry_where 120 t = [poly120] ∧
     band_partition t = Ok bands ∧
     length bands = length t ∧
     geometry_where 60 bands = [poly60 ∖ poly90] ∧
     geometry_where 90 bands = [poly90 ∖ poly120] ∧
     geometry_where 120 bands = [poly120] ∧
     (poly60 ∖ poly90 = ∅ →
      ∃ b, b ∈ bands ∧ (wind_speed b == 60)%Q ∧ geometry b = ∅) ∧
     (poly90 ∖ poly120 = ∅ →
      ∃ b, b ∈ bands ∧ (wind_speed b == 90)%Q ∧ geometry b = ∅)).
Proof.
  assert (¬ (single 60 t ∧ single 90 t ∧ single 120 t) →
          band_partition t = Raise "ValueError") as Hraise.
  { intros Hn. destruct (band_partition t) as [bands|e] eqn:E.
    - exfalso. apply Hn.
      apply band_partition_Ok in E as (p60 & p90 & p120 & E60 & E90 & E120 & _).
      unfold single. by rewrite E60, E90, E120.
    - apply band_partition_Raise in E as [-> _]. reflexivity. }
  split; [exact Hraise|]. split; [|split].
  - intros Hlen. apply Hraise. intros (H60 & H90 & H120).
    pose proof (singles_length t H60 H90 H120). lia.
  - intros e E. by apply band_partition_Raise in E.
  - intros H60 H90 H120.
    apply single_geometry in H60 as [poly60 E60].
    apply single_geometry in H90 as [poly90 E90].
    apply single_geometry in H120 as [poly120 E120].
    destruct (band_partition_geometry_where t _ _ _ E60 E90 E120)
      as (bands & Hb & G60 & G90 & G120).
    exists poly60, poly90, poly120, bands.
    do 4 (split; [done|]). split.
    { apply band_partition_Ok in Hb as (p60 & p90 & p120 & _ & _ & _ & ->).
      by rewrite !set_geometry_where_length. }
    do 3 (split; [done|]). split.
    + intros He. apply geometry_where_empty_row. by rewrite G60, He.
    + intros He. apply geometry_where_empty_row. by rewrite G90, He.
Qed.

Lemma band_partition_failure_witness :
  band_partition [row 60 (box 0 0 1 1)] = Raise "ValueError" ∧
  band_partition two_thresholds = Raise "ValueError" ∧
  ∃ bands, band_partition degenerate = Ok bands ∧ length bands = length degenerate ∧
    ∃ b, b ∈ bands ∧ (wind_speed b == 90)%Q ∧ geometry b = ∅.
Proof.
  split; [|split].
  - apply (proj1 (proj2 (band_partition_failure [row 60 (box 0 0 1 1)]))). simpl. lia.
  - apply (proj1 (band_partition_failure two_thresholds)).
    intros (_ & H90 & _). vm_compute in H90. discriminate H90.
  - destruct (proj2 (proj2 (proj2 (band_partition_failure degenerate))))
      as (p60 & p90 & p120 & bands & E60 & E90 & E120 & Hb & Hlen & _ & _ & _ & _ & Hempty);
      [reflexivity..|].
    exists bands. split; [exact Hb|]. split; [exact Hlen|].
    apply Hempty.
    assert (geometry_where 90 degenerate = [box 0 0 1 1]) as E90' by reflexivity.
    assert (geometry_where 120 degenerate = [box 0 0 1 1]) as E120' by reflexivity.
    rewrite E90' in E90. rewrite E120' in E120.
    injection E90 as <-. injection E120 as <-.
    vm_compute. reflexivity.
Defined.

End BandClaims.

(** ** The spatial join and its per-unit sums *)

Section Aggregation.

Variable predicate : geom → point → bool.
Variable pop : list pop_point.

Lemma group_app k rows rows' : group k (rows ++ rows') = group k rows ++ group k rows'.
Proof. unfold group. apply List.filter_app. Qed.

Lemma group_block k i a :
  group k (block predicate pop i a) = if decide (i = k) then block predicate pop i a else [].
Proof.
  unfold group, block.
  induction (List.filter _ pop) as [|p l IH]; simpl.
  - by case_decide.
  - rewrite IH. case_decide as Hik.
    + subst. by rewrite Nat.eqb_refl.
    + apply Nat.eqb_neq in Hik. by rewrite Hik.
Qed.

Lemma group_blocks (adm : list adm_row) (off k : nat) :
  group k (concat (imap (λ i a, block predicate pop (off + i) a) adm)) =
  match decide (off <= k)%nat with
  | left _ => from_option (block predicate pop k) [] (adm !! (k - off)%nat)
  | right _ => []
  end.
Proof.
  revert off. induction adm as [|a adm IH]; intros off; simpl.
  - by case_decide.
  - rewrite group_app, group_block.
    rewrite (imap_ext _ (λ i a, block predicate pop (S off + i) a)); last first.
    { intros i x _. simpl. f_equal. lia. }
    rewrite IH, Nat.add_0_r. destruct (decide (off = k)) as [->|Hne].
    + rewrite (decide_False (P := (S k <= k)%nat)) by lia.
      rewrite (decide_True (P := (k <= k)%nat)) by lia.
      by rewrite Nat.sub_diag, app_nil_r.
    + destruct (decide (off <= k)%nat) as [Hle|Hgt].
      * rewrite (decide_True (P := (S off <= k)%nat)) by lia.
        replace (k - off)%nat with (S (k - S off)) by lia. done.
      * rewrite (decide_False (P := (S off <= k)%nat)) by lia. done.
Qed.

Lemma group_sjoin (adm : list adm_row) (k : nat) :
  group k (sjoin predicate adm pop) = from_option (block predicate pop k) [] (adm !! k).
Proof.
  unfold sjoin.
  change (imap (block predicate pop) adm)
    with (imap (λ i a, block predicate pop (0 + i) a) adm).
  rewrite group_blocks. case_decide; [|lia]. by rewrite Nat.sub_0_r.
Qed.

End Aggregation.

Lemma group_nil_iff (rows : list joined_row) (k : nat) :
  group k rows = [] ↔ k ∉ map j_index_left rows.
Proof.
  unfold group. induction rows as [|r rows IH]; simpl.
  - split; [intros _; apply not_elem_of_nil|done].
  - rewrite not_elem_of_cons. destruct (Nat.eqb_spec (j_index_left r) k) as [E|E].
    + split; [done|]. intros [Hne _]. congruence.
    + rewrite IH. split; [intros ?; split; [congruence|done]|tauto].
Qed.

Lemma aggregate_index (rows : list joined_row) (k : nat) (u : unit_row) :
  aggregate rows k = Some u → index_left u = k.
Proof. unfold aggregate. destruct (group k rows); [done|]. by intros [= <-]. Qed.

Lemma lookup_unit_omap (rows : list joined_row) (keys : list nat) (i : nat) :
  lookup_unit i (omap (aggregate rows) keys) =
  if decide (i ∈ keys) then aggregate rows i else None.
Proof.
  unfold lookup_unit. induction keys as [|k keys IH]; [done|].
  change (omap (aggregate rows) (k :: keys))
    with (match aggregate rows k with
          | Some u => u :: omap (aggregate rows) keys
          | None => omap (aggregate rows) keys
          end).
  destruct (aggregate rows k) as [u|] eqn:E.
  - cbn [List.find]. pose proof (aggregate_index _ _ _ E) as Hk. rewrite Hk.
    destruct (Nat.eqb_spec k i) as [->|Hne].
    + rewrite decide_True by set_solver. done.
    + rewrite IH. repeat case_decide; set_solver.
  - rewrite IH. destruct (decide (k = i)) as [->|Hne].
    + rewrite E. by repeat case_decide.
    + repeat case_decide; set_solver.
Qed.

(** Looking a unit up in the grouped table is aggregating its group. *)
Lemma lookup_groupby (rows : list joined_row) (i : nat) :
  lookup_unit i (groupby_index_left rows) = aggregate rows i.
Proof.
  unfold groupby_index_left. rewrite lookup_unit_omap.
  case_decide as Hin; [done|].
  rewrite elem_of_remove_dups in Hin. apply group_nil_iff in Hin.
  unfold aggregate. by rewrite Hin.
Qed.

Lemma groupby_NoDup (rows : list joined_row) :
  NoDup (index_left <$> groupby_index_left rows).
Proof.
  unfold groupby_index_left.
  generalize (remove_dups (map j_index_left rows))
    (NoDup_remove_dups (map j_index_left rows)).
  intros keys Hnd. induction Hnd as [|k keys Hk Hnd IH]; simpl; [constructor|].
  destruct (aggregate rows k) as [u|] eqn:E; simpl; [|done].
  constructor; [|done].
  rewrite (aggregate_index _ _ _ E). intros Hin. apply Hk.
  apply list_elem_of_fmap in Hin as (u' & -> & Hu').
  apply list_elem_of_omap in Hu' as (k' & Hk' & E').
  by rewrite (aggregate_index _ _ _ E').
Qed.

Lemma elem_of_groupby (rows : list joined_row) (u : unit_row) :
  u ∈ groupby_index_left rows ↔ aggregate rows (index_left u) = Some u.
Proof.
  unfold groupby_index_left. rewrite list_elem_of_omap. split.
  - intros (k & _ & E). by rewrite (aggregate_index _ _ _ E).
  - intros E. exists (index_left u). split; [|done].
    rewrite elem_of_remove_dups. apply dec_stable. intros Hn.
    apply group_nil_iff in Hn. unfold aggregate in E. by rewrite Hn in E.
Qed.

Lemma block_nil_iff predicate pop i a :
  block predicate pop i a = [] ↔ has_match predicate (adm_geometry a) pop = false.
Proof.
  unfold block, has_match. induction pop as [|p l IH]; simpl; [done|].
  destruct (predicate (adm_geometry a) (pt_geometry p)); simpl; [done|exact IH].
Qed.

(** The row of unit [i] in the aggregated table. *)
Lemma aggregate_sjoin predicate (adm : list adm_row) pop (i : nat) (a : adm_row) :
  adm !! i = Some a →
  aggregate (sjoin predicate adm pop) i =
  if has_match predicate (adm_geometry a) pop
  then Some {| index_left := i; unit_adm := a;
               Total_population_by_adm2 := matching_weight predicate (adm_geometry a) pop |}
  else None.
Proof.
  intros Hi. unfold aggregate. rewrite group_sjoin, Hi. simpl.
  destruct (has_match predicate (adm_geometry a) pop) eqn:E.
  - destruct (block predicate pop i a) as [|r rows] eqn:Eb.
    { apply block_nil_iff in Eb. congruence. }
    assert (j_adm r = a) as ->.
    { assert (r ∈ block predicate pop i a) as Hr by (rewrite Eb; left).
      unfold block in Hr. apply list_elem_of_fmap in Hr as (p & -> & _). done. }
    f_equal. f_equal. rewrite <- Eb. unfold block, matching_weight.
    by rewrite map_map.
  - apply (block_nil_iff _ _ i) in E. by rewrite E.
Qed.

Section AggregationClaims.

Import Tables.

(** C6, as stated, fails on a polygon that no point matches: the sum of
    its matching weights is 0, but the inner join drops the polygon and no
    total is produced for it. *)
Lemma pop_by_adm_no_total_without_match :
  let adm := [full_extent; far_away] in
  let pop := pop_gis identity raster_A in
  adm !! 1%nat = Some far_away ∧
  ¬ ∃ u, lookup_unit 1 (pop_by_adm adm pop) = Some u ∧
         (Total_population_by_adm2 u ==
          matching_weight intersects_point (adm_geometry far_away) pop)%Q.
Proof.
  split; [reflexivity|].
  assert (lookup_unit 1 (pop_by_adm [full_extent; far_away] (pop_gis identity raster_A)) = None)
    as -> by (vm_compute; reflexivity).
  intros (u & Hu & _). discriminate.
Qed.

(** C6, amended: every polygon that at least one point matches gets one
    row, whose total is the sum of the weights of exactly the points that
    satisfy the predicate against it; a polygon over the four points of
    the 2×2 raster 10, 20, 30, 40 gets the total 100. *)
Theorem spatial_aggregation_sums :
  (∀ predicate (adm : list adm_row) pop (i : nat) (a : adm_row),
     adm !! i = Some a →
     has_match predicate (adm_geometry a) pop = true →
     lookup_unit i (groupby_index_left (sjoin predicate adm pop)) =
     Some {| index_left := i; unit_adm := a;
             Total_population_by_adm2 := matching_weight predicate (adm_geometry a) pop |}) ∧
  Total_population_by_adm2 <$> pop_by_adm [full_extent] (pop_gis identity raster_A) = [100%Q].
Proof.
  split.
  - intros predicate adm pop i a Hi Hm.
    by rewrite lookup_groupby, (aggregate_sjoin _ _ _ _ _ Hi), Hm.
  - vm_compute. reflexivity.
Qed.

Lemma spatial_aggregation_sums_witness :
  [full_extent] !! 0%nat = Some full_extent ∧
  has_match intersects_point (adm_geometry full_extent) (pop_gis identity raster_A) = true ∧
  lookup_unit 0 (pop_by_adm [full_extent] (pop_gis identity raster_A)) =
  Some {| index_left := 0; unit_adm := full_extent;
          Total_population_by_adm2 :=
            matching_weight intersects_point (adm_geometry full_extent)
              (pop_gis identity raster_A) |}.
Proof.
  assert (has_match intersects_point (adm_geometry full_extent)
            (pop_gis identity raster_A) = true) as Hm by (vm_compute; reflexivity).
  split; [reflexivity|]. split; [exact Hm|].
  exact (proj1 spatial_aggregation_sums intersects_point [full_extent]
           (pop_gis identity raster_A) 0%nat full_extent eq_refl Hm).
Defined.

Lemma assemble_index `{Measure} (units : list unit_row) (bands : list cyclone_row) :
  out_index <$> assemble units bands = index_left <$> units.
Proof.
  unfold assemble. rewrite <- list_fmap_compose.
  induction units as [|u units IH]; [done|]. simpl. by f_equal.
Qed.

Lemma zip_with_unzip {A B C} (f : A → B → C) (l : list (A * B)) :
  zip_with f (map fst l) (map snd l) = map (λ x, f x.1 x.2) l.
Proof. induction l as [|x l IH]; [done|]. simpl. by f_equal. Qed.

(** [shapes] yields nothing exactly when every cell is masked. *)
Lemma shapes_nil (img : list (list (option Q))) : shapes img = [] ↔ unmasked img = [].
Proof.
  unfold shapes. cbv zeta. destruct (unmasked img) as [|p rest]; [done|].
  cbn [length shapes_from]. by destruct (grow (length rest) [p] rest).
Qed.

(** The sampling returns [pop_gis], unless [shapes] yields nothing. *)
Lemma sample_Ok t (img : list (list (option Q))) (pop : list pop_point) :
  sample t img = Ok pop ↔ shapes img ≠ [] ∧ pop = pop_gis t img.
Proof.
  unfold sample, unzip_shapes, pop_gis.
  destruct (shapes img) as [|s l] eqn:E.
  - cbn. split; [done|]. by intros [? _].
  - change (Ok (zip_with (λ s v, {| pt_geometry := centroid t s; pt_value := v |})
                  (map fst (s :: l)) (map snd (s :: l))) = Ok pop ↔
            s :: l ≠ [] ∧ pop = map (λ sv, {| pt_geometry := centroid t sv.1;
                                             pt_value := sv.2 |}) (s :: l)).
    rewrite zip_with_unzip. split.
    + intros [= <-]. done.
    + intros [_ ->]. done.
Qed.

Lemma sample_Raise t (img : list (list (option Q))) (e : string) :
  sample t img = Raise e ↔ shapes img = [] ∧ e = "ValueError"%string.
Proof.
  unfold sample, unzip_shapes. destruct (shapes img) as [|s l]; cbn.
  - split; [by intros [= <-]|by intros [_ ->]].
  - split; [done|]. by intros [? _].
Qed.

(** The script fails at the unpacking of line 22 or in the band
    partition, and nowhere else. *)
Lemma run_unfold `{Measure} t img (adm : list adm_row) (cyclone_gis : list cyclone_row) :
  run t img adm cyclone_gis =
  match unmasked img with
  | [] => Raise "ValueError"
  | _ => match band_partition (sort_values cyclone_gis) with
         | Ok bands => Ok (assemble (pop_by_adm adm (pop_gis t img)) bands)
         | Raise e => Raise e
         end
  end.
Proof.
  unfold run. destruct (sample t img) as [pop|e] eqn:Es.
  - apply sample_Ok in Es as [Hne ->]. rewrite shapes_nil in Hne.
    by destruct (unmasked img).
  - apply sample_Raise in Es as [Hnil ->]. apply shapes_nil in Hnil. by rewrite Hnil.
Qed.

Lemma run_Ok `{Measure} t img adm cyclone_gis out :
  run t img adm cyclone_gis = Ok out →
  ∃ bands, band_partition (sort_values cyclone_gis) = Ok bands ∧
           out = assemble (pop_by_adm adm (pop_gis t img)) bands.
Proof.
  rewrite run_unfold. destruct (unmasked img); [done|].
  destruct (band_partition (sort_values cyclone_gis)) as [bands|e]; [|done].
  intros [= <-]. eauto.
Qed.

(** C10: a unit that intersects no population point has no row in
    [pop_by_adm], and none in the exported table. *)
Theorem unit_without_points_absent `{Measure} t img (adm : list adm_row) cyclone_gis out (i : nat) (a : adm_row) :
  adm !! i = Some a →
  has_match intersects_point (adm_geometry a) (pop_gis t img) = false →
  run t img adm cyclone_gis = Ok out →
  lookup_unit i (pop_by_adm adm (pop_gis t img)) = None ∧ i ∉ out_index <$> out.
Proof.
  intros Hi Hm Hrun.
  assert (aggregate (adm_sjoin_pop adm (pop_gis t img)) i = None) as Hnone.
  { unfold adm_sjoin_pop. by rewrite (aggregate_sjoin _ _ _ _ _ Hi), Hm. }
  split.
  - unfold pop_by_adm. by rewrite lookup_groupby.
  - apply run_Ok in Hrun as (bands & _ & ->). rewrite assemble_index.
    intros Hin. apply list_elem_of_fmap in Hin as (u & -> & Hu).
    apply elem_of_groupby in Hu. congruence.
Qed.

Lemma unit_without_points_absent_witness :
  let adm := [full_extent; far_away] in
  let out := assemble (pop_by_adm adm (pop_gis identity raster_A)) (bands_spec three_nested) in
  adm !! 1%nat = Some far_away ∧
  has_match intersects_point (adm_geometry far_away) (pop_gis identity raster_A) = false ∧
  run identity raster_A adm three_nested = Ok out ∧
  lookup_unit 1 (pop_by_adm adm (pop_gis identity raster_A)) = None ∧
  1%nat ∉ out_index <$> out.
Proof.
  intros adm out.
  assert (has_match intersects_point (adm_geometry far_away) (pop_gis identity raster_A) = false)
    as Hm by (vm_compute; reflexivity).
  assert (run identity raster_A adm three_nested = Ok out) as Hrun by (vm_compute; reflexivity).
  split; [reflexivity|]. split; [exact Hm|]. split; [exact Hrun|].
  exact (unit_without_points_absent identity raster_A adm three_nested out 1%nat far_away
           eq_refl Hm Hrun).
Defined.

End AggregationClaims.

(** ** Lookups in joined tables *)

Lemma find_app {A} (P : A → bool) (l1 l2 : list A) :
  List.find P (l1 ++ l2) =
  match List.find P l1 with Some x => Some x | None => List.find P l2 end.
Proof. induction l1 as [|x l1 IH]; simpl; [done|]. by destruct (P x). Qed.

Lemma find_none_intro {A} (P : A → bool) (l : list A) :
  (∀ x, x ∈ l → P x = false) → List.find P l = None.
Proof.
  induction l as [|x l IH]; intros H; simpl; [done|].
  rewrite (H x) by left. apply IH. intros y Hy. apply H. by right.
Qed.



Section ListFacts.

Context {A B : Type}.

Lemma find_fmap (P : B → bool) (G : A → B) (l : list A) :
  List.find P (map G l) = G <$> List.find (λ x, P (G x)) l.
Proof. induction l as [|x l IH]; simpl; [done|]. by destruct (P (G x)). Qed.

Lemma find_filter (P q : A → bool) (l : list A) :
  List.find P (List.filter q l) = List.find (λ x, q x && P x) l.
Proof.
  induction l as [|x l IH]; simpl; [done|].
  destruct (q x); simpl; [by rewrite IH|done].
Qed.

Lemma filter_nil_elem (q : A → bool) (l : list A) (x : A) :
  List.filter q l = [] → x ∈ l → q x = false.
Proof.
  induction l as [|y l IH]; simpl; intros Hf Hx; [by apply elem_of_nil in Hx|].
  destruct (q y) eqn:E; [done|].
  apply elem_of_cons in Hx as [->|Hx]; [done|by apply IH].
Qed.

(** In a nested loop whose hits all come from the rows selected by [q],
    and [q] selects the single row [x], the first hit is the first hit
    of the rows made from [x]. *)
Lemma find_bind_unique (q : A → bool) (f : A → list B) (P : B → bool)
    (l : list A) (x : A) :
  (∀ a y, y ∈ f a → P y = true → q a = true) →
  List.filter q l = [x] →
  List.find P (l ≫= f) = List.find P (f x).
Proof.
  intros Hq. induction l as [|a l IH]; [done|].
  change ((a :: l) ≫= f) with (f a ++ (l ≫= f)). rewrite find_app.
  cbn [List.filter]. destruct (q a) eqn:E.
  - intros [= -> Hnil]. destruct (List.find P (f x)); [done|].
    apply find_none_intro. intros y Hy.
    apply list_elem_of_bind in Hy as (a' & Hy & Ha').
    destruct (P y) eqn:EP; [|done].
    rewrite <- (filter_nil_elem q l a' Hnil Ha'). symmetry. by eapply Hq.
  - intros Hf. rewrite (find_none_intro P (f a)); [by apply IH|].
    intros y Hy. destruct (P y) eqn:EP; [|done].
    rewrite <- E. symmetry. by eapply Hq.
Qed.



Lemma filter_key_unique (key : A → nat) (l : list A) (x : A) :
  NoDup (key <$> l) → x ∈ l →
  List.filter (λ a, Nat.eqb (key a) (key x)) l = [x].
Proof.
  induction l as [|a l IH]; simpl; intros Hnd Hx; [by apply elem_of_nil in Hx|].
  apply NoDup_cons in Hnd as [Ha Hnd].
  assert (∀ l' : list A, key x ∉ key <$> l' → List.filter (λ a, Nat.eqb (key a) (key x)) l' = [])
    as Hnone.
  { intros l' Hn. induction l' as [|b l' IH']; simpl; [done|].
    rewrite fmap_cons, not_elem_of_cons in Hn. destruct Hn as [Hne Hn].
    destruct (Nat.eqb_spec (key b) (key x)); [congruence|by apply IH']. }
  apply elem_of_cons in Hx as [->|Hx].
  - rewrite Nat.eqb_refl. f_equal. by apply Hnone.
  - destruct (Nat.eqb_spec (key a) (key x)) as [E|E]; [|by apply IH].
    exfalso. apply Ha. rewrite E. by apply list_elem_of_fmap_2.
Qed.

End ListFacts.

Lemma Qeq_bool_proper_r (a b c : Q) : (b == c)%Q → Qeq_bool a b = Qeq_bool a c.
Proof.
  intros Hbc. destruct (Qeq_bool a c) eqn:E.
  - apply Qeq_bool_iff. apply Qeq_bool_iff in E. by rewrite Hbc.
  - destruct (Qeq_bool a b) eqn:E'; [|done].
    apply Qeq_bool_iff in E'. rewrite Hbc in E'.
    apply Qeq_bool_iff in E'. congruence.
Qed.

Section Apportionment.

Context `{Measure}.
Variable units : list unit_row.
Variable bands : list cyclone_row.
Hypothesis units_NoDup : NoDup (index_left <$> units).

Lemma series_lookup_find (ws : Q) (fd : list final_row) (i : nat) :
  series_lookup i (band_series ws fd) =
  fraction <$> List.find
    (λ r, Qeq_bool (f_wind_speed r) ws && Nat.eqb (f_index_left r) i) fd.
Proof.
  unfold series_lookup, band_series. rewrite find_fmap, find_filter. simpl.
  by destruct (List.find _ fd).
Qed.

(** The record of [final_data] for a unit and the single band of
    threshold [ws], before the [fraction] column is filled. *)
Lemma sjoin_bands_find (u : unit_row) (b : cyclone_row) (ws : Q) :
  u ∈ units →
  List.filter (λ r, Qeq_bool (wind_speed r) ws) bands = [b] →
  List.find (λ r, Qeq_bool (f_wind_speed r) ws && Nat.eqb (f_index_left r) (index_left u))
            (sjoin_bands units bands) =
  if intersects (adm_geometry (unit_adm u)) (geometry b)
  then Some {| f_index_left := index_left u; f_wind_speed := wind_speed b;
               f_unit := u; fraction := NaN |}
  else None.
Proof.
  intros Hu Hb. unfold sjoin_bands.
  rewrite (find_bind_unique (λ u', Nat.eqb (index_left u') (index_left u)) _ _ units u);
    [| |by apply filter_key_unique].
  2:{ intros u' y Hy. apply list_elem_of_bind in Hy as (b' & Hy & _).
      destruct (intersects _ _); [|by apply elem_of_nil in Hy].
      apply list_elem_of_singleton in Hy as ->. simpl. by intros [_ ?]%andb_prop. }
  rewrite (find_bind_unique (λ r, Qeq_bool (wind_speed r) ws) _ _ bands b); [| |exact Hb].
  2:{ intros b' y Hy. destruct (intersects _ _); [|by apply elem_of_nil in Hy].
      apply list_elem_of_singleton in Hy as ->. simpl. by intros [? _]%andb_prop. }
  apply filter_singleton_elem in Hb as [_ Hb].
  destruct (intersects (adm_geometry (unit_adm u)) (geometry b)); simpl; [|done].
  by rewrite Hb, Nat.eqb_refl.
Qed.

(** The row of [overlay_data] for the same pair. *)
Lemma overlay_find (u : unit_row) (b : cyclone_row) (ws : Q) :
  u ∈ units →
  List.filter (λ r, Qeq_bool (wind_speed r) ws) bands = [b] →
  List.find (same_key (index_left u) (wind_speed b)) (overlay units bands) =
  if decide (adm_geometry (unit_adm u) ∩ geometry b = ∅) then None
  else Some {| o_index_left := index_left u; o_wind_speed := wind_speed b;
               o_geometry := adm_geometry (unit_adm u) ∩ geometry b;
               overlapping_area := overlap_area (adm_geometry (unit_adm u)) (geometry b) |}.
Proof.
  intros Hu Hb. unfold overlay.
  pose proof (filter_singleton_elem _ _ _ Hb) as [_ Hbws].
  apply Qeq_bool_iff in Hbws.
  assert (List.filter (λ r, Qeq_bool (wind_speed r) (wind_speed b)) bands = [b]) as Hb'.
  { rewrite <- Hb. apply List.filter_ext. intros r. by apply Qeq_bool_proper_r. }
  rewrite (find_bind_unique (λ u', Nat.eqb (index_left u') (index_left u)) _ _ units u);
    [| |by apply filter_key_unique].
  2:{ intros u' y Hy. apply list_elem_of_bind in Hy as (b' & Hy & _).
      case_decide; [by apply elem_of_nil in Hy|].
      apply list_elem_of_singleton in Hy as ->. unfold same_key. simpl.
      by intros [? _]%andb_prop. }
  rewrite (find_bind_unique (λ r, Qeq_bool (wind_speed r) (wind_speed b)) _ _ bands b);
    [| |exact Hb'].
  2:{ intros b' y Hy. case_decide; [by apply elem_of_nil in Hy|].
      apply list_elem_of_singleton in Hy as ->. unfold same_key. simpl.
      by intros [_ ?]%andb_prop. }
  case_decide; [done|]. simpl. unfold same_key. simpl.
  rewrite Nat.eqb_refl. simpl.
  by rewrite (proj2 (Qeq_bool_iff _ _) (Qeq_refl _)).
Qed.


(** The entry of a unit in the series of the band of threshold [ws]. *)
Lemma band_series_lookup (u : unit_row) (b : cyclone_row) (ws : Q) :
  u ∈ units →
  List.filter (λ r, Qeq_bool (wind_speed r) ws) bands = [b] →
  series_lookup (index_left u) (band_series ws (final_data units bands)) =
  if intersects (adm_geometry (unit_adm u)) (geometry b)
  then Some (fmul (ratio u b) (Fin (Total_population_by_adm2 u)))
  else None.
Proof.
  intros Hu Hb. rewrite series_lookup_find.
  unfold final_data, final_data_ratio. rewrite map_map, find_fmap. simpl.
  rewrite (sjoin_bands_find u b ws Hu Hb).
  destruct (intersects (adm_geometry (unit_adm u)) (geometry b)); simpl; [|done].
  unfold aligned_quotient. simpl. rewrite (overlay_find u b ws Hu Hb).
  unfold ratio. cbv zeta. by case_decide.
Qed.

End Apportionment.

(** ** Areas and shares *)

Lemma intersects_overlap (g h : geom) (c : cell) :
  c ∈ g → c ∈ h → intersects g h = true.
Proof.
  intros Hg Hh. unfold intersects. apply existsb_exists. exists c. split.
  - apply list_elem_of_In. by apply elem_of_elements.
  - apply existsb_exists. exists c. split; [|by apply bool_decide_eq_true].
    destruct c as [x y]. unfold around. simpl.
    do 4 right. left. f_equal; lia.
Qed.

Lemma not_intersects_disjoint (g h : geom) : intersects g h = false → g ∩ h = ∅.
Proof.
  intros Hi. apply set_eq. intros c. split; [|by intros ?%not_elem_of_empty].
  intros [Hg Hh]%elem_of_intersection.
  rewrite (intersects_overlap g h c Hg Hh) in Hi. discriminate.
Qed.

(** The quotient of a measured overlap by the measured area of the unit
    is a positive finite number as soon as the two geometries share a
    square. *)
Lemma fdiv_overlap `{Measure} (g h : geom) :
  g ∩ h ≠ ∅ →
  fdiv (Fin (overlap_area g h)) (Fin (area g)) = Fin (overlap_area g h / area g) ∧
  (0 < overlap_area g h / area g)%Q.
Proof.
  intros Hne.
  assert (0 < area g)%Q as Hpos.
  { apply area_positive. intros ->. apply Hne. set_solver. }
  pose proof (overlap_area_positive g h Hne) as Ho.
  split.
  - unfold fdiv. apply Qgt_alt in Hpos. by rewrite Hpos.
  - apply Qlt_shift_div_l; [done|]. by rewrite Qmult_0_l.
Qed.






Lemma Qsum_app (l1 l2 : list Q) : (Qsum (l1 ++ l2) == Qsum l1 + Qsum l2)%Q.
Proof.
  induction l1 as [|q l1 IH]; simpl; [by rewrite Qplus_0_l|].
  rewrite IH. apply Qplus_assoc.
Qed.

Lemma Qsum_nonneg (l : list Q) : Forall (λ q, (0 <= q)%Q) l → (0 <= Qsum l)%Q.
Proof.
  induction 1 as [|q l Hq _ IH]; simpl; [apply Qle_refl|].
  replace 0%Q with (0 + 0)%Q by reflexivity. by apply Qplus_le_compat.
Qed.




(** ** Claims on the area fractions *)

Lemma elem_of_sjoin_bands (units : list unit_row) (bands : list cyclone_row) (r : final_row) :
  r ∈ sjoin_bands units bands ↔
  ∃ u b, u ∈ units ∧ b ∈ bands ∧
    intersects (adm_geometry (unit_adm u)) (geometry b) = true ∧
    r = {| f_index_left := index_left u; f_wind_speed := wind_speed b;
           f_unit := u; fraction := NaN |}.
Proof.
  unfold sjoin_bands. rewrite list_elem_of_bind. split.
  - intros (u & Hr & Hu). apply list_elem_of_bind in Hr as (b & Hr & Hb).
    destruct (intersects _ _) eqn:E; [|by apply elem_of_nil in Hr].
    apply list_elem_of_singleton in Hr. eauto 10.
  - intros (u & b & Hu & Hb & E & ->). exists u. split; [|done].
    apply list_elem_of_bind. exists b. split; [|done].
    rewrite E. by apply list_elem_of_singleton.
Qed.

Lemma elem_of_overlay `{Measure} (units : list unit_row) (bands : list cyclone_row) (o : overlay_row) :
  o ∈ overlay units bands ↔
  ∃ u b, u ∈ units ∧ b ∈ bands ∧
    adm_geometry (unit_adm u) ∩ geometry b ≠ ∅ ∧
    o = {| o_index_left := index_left u; o_wind_speed := wind_speed b;
           o_geometry := adm_geometry (unit_adm u) ∩ geometry b;
           overlapping_area := overlap_area (adm_geometry (unit_adm u)) (geometry b) |}.
Proof.
  unfold overlay. rewrite list_elem_of_bind. split.
  - intros (u & Hr & Hu). apply list_elem_of_bind in Hr as (b & Hr & Hb).
    case_decide as E; [by apply elem_of_nil in Hr|].
    apply list_elem_of_singleton in Hr. eauto 10.
  - intros (u & b & Hu & Hb & E & ->). exists u. split; [|done].
    apply list_elem_of_bind. exists b. split; [|done].
    rewrite decide_False by done. by apply list_elem_of_singleton.
Qed.

Section FractionClaims.

Import Tables.



(** The bound by 1 needs exact areas: a measurement that reports the
    overlay polygons one thousandth too large gives a unit inside the
    polygon of 120 the fraction 1.001 (and NaN for the band of 90, which
    the unit touches). *)
Example fraction_with_overmeasured_overlap :
  let units := pop_by_adm [one_square] (pop_gis identity raster_tiny) in
  map fraction (@final_data_ratio overmeasured units (bands_spec three_nested))
  = [NaN; Fin (1001 # 1000)].
Proof. vm_compute. reflexivity. Qed.


End FractionClaims.

(** ** Claims on the exposed population *)

(** The rows that the thresholds 60, 90 and 120 select after the
    partition, in terms of the rows they select before it. *)
Lemma band_partition_rows (t bands : list cyclone_row) :
  band_partition t = Ok bands →
  ∃ r60 r90 r120,
    r90 ∈ t ∧ r120 ∈ t ∧ (wind_speed r90 == 90)%Q ∧ (wind_speed r120 == 120)%Q ∧
    List.filter (λ r, Qeq_bool (wind_speed r) 60) bands =
      [ {| wind_speed := wind_speed r60; geometry := geometry r60 ∖ geometry r90 |} ] ∧
    List.filter (λ r, Qeq_bool (wind_speed r) 90) bands =
      [ {| wind_speed := wind_speed r90; geometry := geometry r90 ∖ geometry r120 |} ] ∧
    List.filter (λ r, Qeq_bool (wind_speed r) 120) bands = [r120].
Proof.
  intros H. apply band_partition_Ok in H as (p60 & p90 & p120 & E60 & E90 & E120 & ->).
  apply geometry_where_row in E60 as (r60 & F60 & <- & _ & H60).
  apply geometry_where_row in E90 as (r90 & F90 & <- & I90 & H90).
  apply geometry_where_row in E120 as (r120 & F120 & <- & I120 & H120).
  exists r60, r90, r120. repeat split; try done.
  - rewrite !filter_set_geometry_where, F60. simpl.
    rewrite (Qeq_bool_known _ _ 90 false H60 eq_refl). simpl.
    by rewrite (Qeq_bool_known _ _ 60 true H60 eq_refl).
  - rewrite !filter_set_geometry_where, F90. simpl.
    rewrite (Qeq_bool_known _ _ 90 true H90 eq_refl). simpl.
    by rewrite (Qeq_bool_known _ _ 60 false H90 eq_refl).
  - rewrite !filter_set_geometry_where, F120. simpl.
    rewrite (Qeq_bool_known _ _ 90 false H120 eq_refl). simpl.
    by rewrite (Qeq_bool_known _ _ 60 false H120 eq_refl).
Qed.




Lemma total_nonneg (adm : list adm_row) (pop : list pop_point) (u : unit_row) :
  Forall (λ p, (0 <= pt_value p)%Q) pop →
  u ∈ pop_by_adm adm pop → (0 <= Total_population_by_adm2 u)%Q.
Proof.
  intros Hpop Hu. apply elem_of_groupby in Hu. unfold aggregate in Hu.
  unfold adm_sjoin_pop in Hu. rewrite group_sjoin in Hu.
  destruct (adm !! index_left u) as [a|]; simpl in Hu; [|done].
  destruct (block intersects_point pop (index_left u) a) as [|r rows] eqn:E; [done|].
  injection Hu as <-. cbn [Total_population_by_adm2].
  change (0 <= Qsum (map j_value (r :: rows)))%Q. rewrite <- E.
  unfold block. rewrite map_map. cbn [j_value].
  apply Qsum_nonneg. apply Forall_forall. intros q Hq.
  apply list_elem_of_In, in_map_iff in Hq as (p & <- & Hp).
  apply filter_In in Hp as [Hp _]. apply list_elem_of_In in Hp.
  by apply (proj1 (Forall_forall _ _) Hpop).
Qed.


Lemma nested_subseteq (t : list cyclone_row) (r r' : cyclone_row) :
  nested t → r ∈ t → r' ∈ t → (wind_speed r < wind_speed r')%Q →
  geometry r' ⊆ geometry r.
Proof.
  unfold nested. rewrite Forall_forall. intros Hn Hr Hr' Hlt.
  specialize (Hn r Hr). rewrite Forall_forall in Hn. by apply Hn.
Qed.


Section ExposureClaims.

Import Tables.


(** The bound needs exact areas: a measurement that reports the overlay
    polygons one thousandth too large attributes 10.01 people of 10 to a
    unit inside the polygon of 120. *)
Example exposure_with_overmeasured_overlap :
  let units := pop_by_adm [unit_at "MG06" (box 0 0 1 1)]
                          (pop_gis identity [[Some 10%Q]]) in
  let u := {| index_left := 0; unit_adm := unit_at "MG06" (box 0 0 1 1);
              Total_population_by_adm2 := 10 |} in
  units = [u] ∧
  (exposed_total (@final_data overmeasured units (bands_spec three_nested)) 0
   == 1001 # 100)%Q.
Proof. split; vm_compute; reflexivity. Qed.



End ExposureClaims.

(** ** Claims on the result table *)

Lemma elem_of_assemble `{Measure} (units : list unit_row) (bands : list cyclone_row) (o : out_row) :
  o ∈ assemble units bands ↔
  ∃ u, u ∈ units ∧ o = assemble_row (final_data units bands) u.
Proof.
  unfold assemble. split.
  - intros Ho. apply list_elem_of_In, in_map_iff in Ho as (u & <- & Hu).
    exists u. split; [by apply list_elem_of_In|done].
  - intros (u & Hu & ->). apply list_elem_of_In, in_map. by apply list_elem_of_In.
Qed.


Lemma round2_zero (q : Q) : (q == 0)%Q → (round2 q == 0)%Q.
Proof.
  intros Hq. unfold round2, rint.
  assert (q * 100 == 0)%Q as H0 by (rewrite Hq; reflexivity).
  assert (Qfloor (q * 100) = 0%Z) as -> by (by rewrite (Qfloor_comp _ _ H0)).
  assert ((q * 100 - inject_Z 0 ?= 1 # 2)%Q = Lt) as ->; [|reflexivity].
  apply Qlt_alt. rewrite H0. reflexivity.
Qed.




Section TableClaims.

Import Tables.


Example tiny_unit_percentages :
  let units := pop_by_adm [one_square] (pop_gis identity raster_tiny) in
  let fd := final_data units (bands_spec three_nested) in
  Forall (λ o,
    fnum_eq (population_at_band 120 fd (out_index o)) (Fin (4 # 1000)) ∧
    fnum_eq (People_at_120kmph o) (Fin 0) ∧
    fnum_eq (pct_people_at_120kmph o) (Fin 0) ∧
    fnum_eq (percent_spec (population_at_band 120 fd (out_index o))
                          (out_Total_population_by_adm2 o)) (Fin 100))
    (assemble units (bands_spec three_nested)).
Proof. vm_compute. repeat constructor. Qed.





End TableClaims.

(** ** Raster sampling and mass conservation *)

Section Sampling.

Local Open Scope Q_scope.

Lemma Qsum_perm (l1 l2 : list Q) : Permutation l1 l2 → Qsum l1 == Qsum l2.
Proof.
  induction 1 as [|q l1 l2 _ IH|q1 q2 l|l1 l2 l3 _ IH1 _ IH2]; simpl.
  - reflexivity.
  - by rewrite IH.
  - rewrite !Qplus_assoc. by rewrite (Qplus_comm q2 q1).
  - by rewrite IH1.
Qed.

Lemma filter_split {A} (f : A → bool) (l : list A) :
  Permutation (List.filter f l ++ List.filter (λ x, negb (f x)) l) l.
Proof.
  induction l as [|x l IH]; simpl; [done|].
  destruct (f x); simpl.
  - by constructor.
  - rewrite <- Permutation_middle. by constructor.
Qed.

Lemma joins_value (region : list pixel) (p : pixel) (v : Q) :
  Forall (λ q, pval q == v) region → joins region p = true → pval p == v.
Proof.
  intros Hr Hj. unfold joins in Hj. apply existsb_exists in Hj as (q & Hq & Hqp).
  apply andb_prop in Hqp as [_ Hs]. unfold same_value in Hs. apply Qeq_bool_iff in Hs.
  rewrite <- Hs. apply (proj1 (Forall_forall _ _) Hr). by apply list_elem_of_In.
Qed.

(** The flood fill only moves pixels from [rest] to [region], and only
    pixels that hold the value of the region. *)
Lemma grow_spec (fuel : nat) (region rest region' rest' : list pixel) :
  grow fuel region rest = (region', rest') →
  Permutation (region' ++ rest') (region ++ rest) ∧
  (length region <= length region')%nat ∧
  ∀ v, Forall (λ q, pval q == v) region → Forall (λ q, pval q == v) region'.
Proof.
  revert region rest. induction fuel as [|n IH]; intros region rest; simpl.
  { intros [= <- <-]. auto. }
  destruct (List.filter (joins region) rest) as [|x near] eqn:E.
  { intros [= <- <-]. auto. }
  intros Hg. apply IH in Hg as (Hperm & Hlen & Hval). split; [|split].
  - rewrite Hperm, <- app_assoc. apply Permutation_app_head.
    rewrite <- E. apply filter_split.
  - rewrite length_app in Hlen. lia.
  - intros v Hv. apply Hval. apply Forall_app. split; [done|].
    rewrite <- E. apply Forall_forall. intros p Hp.
    apply list_elem_of_In, filter_In in Hp as [_ Hj]. by eapply joins_value.
Qed.

Lemma shapes_from_spec (fuel : nat) (pixels : list pixel) :
  (length pixels <= fuel)%nat →
  Permutation (concat (map fst (shapes_from fuel pixels))) pixels ∧
  Forall (λ s, s.1 ≠ [] ∧ Forall (λ q, pval q == s.2) s.1) (shapes_from fuel pixels).
Proof.
  revert pixels. induction fuel as [|n IH]; intros [|p rest] Hlen; simpl in *;
    try (split; [done|constructor]); try lia.
  destruct (grow (length rest) [p] rest) as [region rest'] eqn:E.
  apply grow_spec in E as (Hperm & Hl & Hval). simpl in *.
  assert (length rest' <= n)%nat as Hn.
  { apply Permutation_length in Hperm. rewrite length_app in Hperm. simpl in Hperm. lia. }
  destruct (IH rest' Hn) as [IHp IHv]. split.
  - by rewrite IHp.
  - constructor; [|done]. simpl. split.
    + intros ->. simpl in Hl. lia.
    + apply Hval. by repeat constructor.
Qed.

Lemma Qsum_region (region : list pixel) (v : Q) :
  Forall (λ q, pval q == v) region →
  Qsum (map pval region) == inject_Z (Z.of_nat (length region)) * v.
Proof.
  induction 1 as [|q region Hq _ IH].
  - simpl. by rewrite Qmult_0_l.
  - cbn [map Qsum fold_right length]. fold (Qsum (map pval region)).
    rewrite IH, Hq, Nat2Z.inj_succ. unfold Z.succ. rewrite inject_Z_plus. ring.
Qed.

(** The regions of [shapes] split the non-masked cells: the raster mass
    is the sum over the regions of size times value. *)
Lemma raster_mass_regions (img : list (list (option Q))) :
  raster_mass img == regions_mass (shapes img).
Proof.
  unfold raster_mass, regions_mass, shapes. cbv zeta.
  destruct (shapes_from_spec (length (unmasked img)) (unmasked img)) as [Hperm Hval]; [lia|].
  rewrite <- (Qsum_perm _ _ (Permutation_map pval Hperm)). clear Hperm.
  induction Hval as [|[region v] regions [_ Hv] _ IH]; simpl; [reflexivity|].
  rewrite map_app, Qsum_app. simpl in Hv. by rewrite (Qsum_region _ _ Hv), IH.
Qed.

(** The points weigh one value per region. *)
Lemma total_weight_regions (t : affine) (img : list (list (option Q))) :
  total_weight (pop_gis t img) = Qsum (map snd (shapes img)).
Proof. unfold total_weight, pop_gis. by rewrite map_map. Qed.

(** Where every region is a single cell, the mass is conserved. *)
Lemma mass_conserved_per_pixel (t : affine) (img : list (list (option Q))) :
  Forall (λ s, length s.1 = 1%nat) (shapes img) →
  total_weight (pop_gis t img) == raster_mass img.
Proof.
  intros H1. rewrite raster_mass_regions, total_weight_regions. unfold regions_mass.
  induction H1 as [|[region v] regions Hl _ IH]; simpl; [reflexivity|].
  simpl in Hl. rewrite Hl, IH. simpl. ring.
Qed.

End Sampling.

Section SamplingClaims.

Import Tables.

(** C1 fails on the code: two neighbouring cells that both hold 5 form
    one region, so [shapes] yields one shape of value 5 and the points
    weigh 5, while the raster holds 10. *)
Theorem mass_lost_on_equal_neighbours :
  (total_weight (pop_gis identity raster_pair) == 5)%Q ∧
  (raster_mass raster_pair == 10)%Q ∧
  ¬ (total_weight (pop_gis identity raster_pair) == raster_mass raster_pair)%Q.
Proof. repeat split. intros H. vm_compute in H. discriminate H. Qed.

Example mass_conserved_2x2 :
  (total_weight (pop_gis identity raster_A) == raster_mass raster_A)%Q.
Proof. apply mass_conserved_per_pixel. repeat constructor. Qed.

End SamplingClaims.

(** * Further properties of the script *)

(** ** Sorting the thresholds (line 70) *)

Section Sorting.

Local Open Scope Q_scope.

Lemma insert_sorted_perm (r : cyclone_row) (t : list cyclone_row) :
  Permutation (insert_sorted r t) (r :: t).
Proof.
  induction t as [|r' t IH]; simpl; [done|].
  destruct (Qle_bool (wind_speed r) (wind_speed r')); [done|].
  rewrite IH. apply perm_swap.
Qed.

Lemma insert_sorted_sorted (r : cyclone_row) (t : list cyclone_row) :
  StronglySorted (λ a b, wind_speed a <= wind_speed b) t →
  StronglySorted (λ a b, wind_speed a <= wind_speed b) (insert_sorted r t).
Proof.
  induction 1 as [|r' t Hs IH Hall]; simpl; [by repeat constructor|].
  destruct (Qle_bool (wind_speed r) (wind_speed r')) eqn:E.
  - apply Qle_bool_iff in E. constructor; [by constructor|].
    constructor; [done|]. eapply Forall_impl; [exact Hall|].
    intros x Hx. simpl in Hx. by eapply Qle_trans.
  - constructor; [done|].
    assert (wind_speed r' <= wind_speed r) as Hle.
    { apply Qlt_le_weak, Qnot_le_lt. intros H. apply Qle_bool_iff in H. congruence. }
    apply Forall_forall. intros x Hx.
    apply list_elem_of_In in Hx.
    apply (Permutation_in _ (insert_sorted_perm r t)) in Hx as [<-|Hx]; [done|].
    apply (proj1 (Forall_forall _ _) Hall). by apply list_elem_of_In.
Qed.

(** Inserting a row leaves the rows of every threshold in their order. *)
Lemma filter_insert_sorted (k : Q) (r : cyclone_row) (t : list cyclone_row) :
  List.filter (λ x, Qeq_bool (wind_speed x) k) (insert_sorted r t) =
  List.filter (λ x, Qeq_bool (wind_speed x) k) (r :: t).
Proof.
  induction t as [|r' t IH]; [done|]. cbn [insert_sorted].
  destruct (Qle_bool (wind_speed r) (wind_speed r')) eqn:E; [done|].
  cbn [List.filter] in *. rewrite IH.
  destruct (Qeq_bool (wind_speed r) k) eqn:Er, (Qeq_bool (wind_speed r') k) eqn:Er'; try done.
  exfalso. apply Qeq_bool_iff in Er, Er'.
  assert (Qle_bool (wind_speed r) (wind_speed r') = true) as Hle; [|congruence].
  apply Qle_bool_iff. rewrite Er, Er'. apply Qle_refl.
Qed.

Lemma filter_sort_values (k : Q) (t : list cyclone_row) :
  List.filter (λ x, Qeq_bool (wind_speed x) k) (sort_values t) =
  List.filter (λ x, Qeq_bool (wind_speed x) k) t.
Proof.
  induction t as [|r t IH]; [done|]. unfold sort_values in *. cbn [fold_right].
  rewrite filter_insert_sorted. cbn [List.filter]. by rewrite IH.
Qed.

Lemma geometry_where_sort_values (k : Q) (t : list cyclone_row) :
  geometry_where k (sort_values t) = geometry_where k t.
Proof. unfold geometry_where. by rewrite filter_sort_values. Qed.

Lemma insert_sorted_set_geometry (ws : Q) (g : geom) (r : cyclone_row) (t : list cyclone_row) :
  insert_sorted (if Qeq_bool (wind_speed r) ws
                 then {| wind_speed := wind_speed r; geometry := g |} else r)
                (set_geometry_where ws g t) =
  set_geometry_where ws g (insert_sorted r t).
Proof.
  assert (∀ x, wind_speed (if Qeq_bool (wind_speed x) ws
                          then {| wind_speed := wind_speed x; geometry := g |} else x)
               = wind_speed x) as Hws.
  { intros x. by destruct (Qeq_bool (wind_speed x) ws). }
  induction t as [|r' t IH]; [done|].
  cbn [set_geometry_where map insert_sorted]. rewrite !Hws.
  destruct (Qle_bool (wind_speed r) (wind_speed r')); [done|].
  cbn [map]. f_equal. exact IH.
Qed.

Lemma sort_values_set_geometry (ws : Q) (g : geom) (t : list cyclone_row) :
  sort_values (set_geometry_where ws g t) = set_geometry_where ws g (sort_values t).
Proof.
  induction t as [|r t IH]; [done|].
  unfold sort_values in *. cbn [set_geometry_where map fold_right].
  fold (set_geometry_where ws g t). rewrite IH. apply insert_sorted_set_geometry.
Qed.

(** [sort_values] rearranges the rows of the table, none lost and none
    added, into ascending order of wind speed. *)
Theorem sort_values_ascending (t : list cyclone_row) :
  Permutation (sort_values t) t ∧
  StronglySorted (λ a b, wind_speed a <= wind_speed b) (sort_values t).
Proof.
  unfold sort_values. induction t as [|r t [IHp IHs]]; simpl.
  - split; [done|constructor].
  - split.
    + rewrite insert_sorted_perm. by constructor.
    + by apply insert_sorted_sorted.
Qed.

(** The partition does not depend on the order of the rows: on the sorted
    table it raises when it raises on the unsorted one, and otherwise
    returns the same bands, sorted. *)
Theorem band_partition_sort_values (t : list cyclone_row) :
  band_partition (sort_values t) =
  match band_partition t with
  | Ok bands => Ok (sort_values bands)
  | Raise e => Raise e
  end.
Proof.
  unfold band_partition. rewrite !geometry_where_sort_values.
  destruct (item (geometry_where 60 t)) as [p60|]; [|done].
  destruct (item (geometry_where 90 t)) as [p90|]; [|done].
  destruct (item (geometry_where 120 t)) as [p120|]; [|done].
  cbn. by rewrite !sort_values_set_geometry.
Qed.

End Sorting.

(** ** What the partition changes and what it keeps (lines 79-83) *)

Lemma Forall2_map_self {A} (P : A → A → Prop) (g : A → A) (l : list A) :
  (∀ x, x ∈ l → P (g x) x) → Forall2 P (map g l) l.
Proof.
  induction l as [|x l IH]; intros H; simpl; constructor.
  - apply H. left.
  - apply IH. intros y Hy. apply H. by right.
Qed.

Lemma geometry_where_unique (ws : Q) (t : list cyclone_row) (g : geom) (r : cyclone_row) :
  geometry_where ws t = [g] → r ∈ t → (wind_speed r == ws)%Q → geometry r = g.
Proof.
  intros Hg Hr Hws. apply geometry_where_row in Hg as (r' & Hf & <- & _ & _).
  assert (In r (List.filter (λ x, Qeq_bool (wind_speed x) ws) t)) as Hin.
  { apply filter_In. split; [by apply list_elem_of_In|by apply Qeq_bool_iff]. }
  rewrite Hf in Hin. destruct Hin as [->|[]]. done.
Qed.

(** The partition returns the table row by row: every row keeps its
    threshold, no band reaches outside the polygon it comes from, and a
    row whose threshold is neither 60 nor 90 is returned unchanged. *)
Theorem band_partition_rowwise (t bands : list cyclone_row) :
  band_partition t = Ok bands →
  Forall2 (λ b r, wind_speed b = wind_speed r ∧ geometry b ⊆ geometry r ∧
                  (Qeq_bool (wind_speed r) 60 = false →
                   Qeq_bool (wind_speed r) 90 = false → b = r))
          bands t.
Proof.
  intros H. apply band_partition_Ok in H as (p60 & p90 & p120 & E60 & E90 & E120 & ->).
  unfold set_geometry_where. rewrite map_map. apply Forall2_map_self.
  intros r Hr.
  destruct (Qeq_bool (wind_speed r) 90) eqn:H90; cbn [wind_speed].
  - pose proof H90 as H90'. apply Qeq_bool_iff in H90'.
    rewrite (Qeq_bool_known _ _ 60 false H90' eq_refl).
    rewrite (geometry_where_unique 90 t p90 r E90 Hr H90').
    split; [done|]. split; [set_solver|]. intros _ ?. discriminate.
  - destruct (Qeq_bool (wind_speed r) 60) eqn:H60; cbn [wind_speed geometry].
    + pose proof H60 as H60'. apply Qeq_bool_iff in H60'.
      rewrite (geometry_where_unique 60 t p60 r E60 Hr H60').
      split; [done|]. split; [set_solver|]. intros ?. discriminate.
    + split; [done|]. split; [done|]. done.
Qed.

Lemma band_partition_rowwise_witness :
  Forall2 (λ b r, wind_speed b = wind_speed r ∧ geometry b ⊆ geometry r ∧
                  (Qeq_bool (wind_speed r) 60 = false →
                   Qeq_bool (wind_speed r) 90 = false → b = r))
          (Tables.row 30 (box 0 0 5 1) :: bands_spec Tables.three_nested)
          Tables.four_nested.
Proof.
  apply (band_partition_rowwise Tables.four_nested). vm_compute. reflexivity.
Defined.

(** After the partition, looking the three thresholds up again gives the
    three differences, whatever other rows the table has. *)
Theorem band_partition_lookup (t : list cyclone_row) (poly60 poly90 poly120 : geom) :
  geometry_where 60 t = [poly60] →
  geometry_where 90 t = [poly90] →
  geometry_where 120 t = [poly120] →
  ∃ bands, band_partition t = Ok bands ∧
    geometry_where 60 bands = [poly60 ∖ poly90] ∧
    geometry_where 90 bands = [poly90 ∖ poly120] ∧
    geometry_where 120 bands = [poly120].
Proof. apply band_partition_geometry_where. Qed.

Lemma band_partition_lookup_witness :
  ∃ bands, band_partition Tables.four_nested = Ok bands ∧
    geometry_where 60 bands = [box 0 0 4 1 ∖ box 0 0 2 1] ∧
    geometry_where 90 bands = [box 0 0 2 1 ∖ box 0 0 1 1] ∧
    geometry_where 120 bands = [box 0 0 1 1].
Proof.
  apply (band_partition_lookup Tables.four_nested); reflexivity.
Defined.

(** Whether the polygons are nested or not, the band of 90 shares no area
    with the band of 60 nor with the band of 120; the bands of 60 and 120
    share exactly the part of both polygons that lies outside the polygon
    of 90. *)
Theorem consecutive_bands_disjoint (t bands : list cyclone_row) (b60 b90 b120 : cyclone_row) :
  band_partition t = Ok bands →
  b60 ∈ bands → b90 ∈ bands → b120 ∈ bands →
  (wind_speed b60 == 60)%Q → (wind_speed b90 == 90)%Q → (wind_speed b120 == 120)%Q →
  geometry b60 ∩ geometry b90 = ∅ ∧
  geometry b90 ∩ geometry b120 = ∅ ∧
  ∀ poly60 poly90 poly120,
    geometry_where 60 t = [poly60] → geometry_where 90 t = [poly90] →
    geometry_where 120 t = [poly120] →
    geometry b60 ∩ geometry b120 = (poly60 ∩ poly120) ∖ poly90.
Proof.
  intros Hb I60 I90 I120 H60 H90 H120.
  pose proof Hb as Hb'.
  apply band_partition_Ok in Hb' as (p60 & p90 & p120 & E60 & E90 & E120 & _).
  destruct (band_partition_geometry_where t p60 p90 p120 E60 E90 E120)
    as (bands' & Hb'' & G60 & G90 & G120).
  assert (bands' = bands) as -> by congruence.
  rewrite (geometry_where_unique 60 bands _ b60 G60 I60 H60),
    (geometry_where_unique 90 bands _ b90 G90 I90 H90),
    (geometry_where_unique 120 bands _ b120 G120 I120 H120).
  split; [set_solver|]. split; [set_solver|].
  intros q60 q90 q120 Q60 Q90 Q120.
  rewrite E60 in Q60. rewrite E90 in Q90. rewrite E120 in Q120.
  injection Q60 as <-. injection Q90 as <-. injection Q120 as <-. set_solver.
Qed.

Lemma consecutive_bands_disjoint_witness :
  let b60 := Tables.row 60 (box 1 0 3 1) in
  let b90 := Tables.row 90 (box 0 0 1 1) in
  let b120 := Tables.row 120 (box 3 0 1 1) in
  geometry b60 ∩ geometry b90 = ∅ ∧
  geometry b90 ∩ geometry b120 = ∅ ∧
  ∀ poly60 poly90 poly120,
    geometry_where 60 Tables.not_nested = [poly60] →
    geometry_where 90 Tables.not_nested = [poly90] →
    geometry_where 120 Tables.not_nested = [poly120] →
    geometry b60 ∩ geometry b120 = (poly60 ∩ poly120) ∖ poly90.
Proof.
  intros b60 b90 b120.
  apply (consecutive_bands_disjoint Tables.not_nested [b60; b90; b120]).
  - vm_compute. reflexivity.
  - apply list_elem_of_In. simpl. auto.
  - apply list_elem_of_In. simpl. auto.
  - apply list_elem_of_In. simpl. auto.
  - reflexivity.
  - reflexivity.
  - reflexivity.
Defined.

(** ** The whole table of unit totals (lines 43-56) *)

Lemma aggregate_sjoin_lookup predicate (adm : list adm_row) pop (k : nat) :
  aggregate (sjoin predicate adm pop) k = adm !! k ≫= unit_total_row predicate pop k.
Proof.
  destruct (adm !! k) as [a|] eqn:E; simpl.
  - by rewrite (aggregate_sjoin _ _ _ _ _ E).
  - unfold aggregate. by rewrite group_sjoin, E.
Qed.

Lemma remove_dups_app_disjoint {A} `{EqDecision A} (l1 l2 : list A) :
  (∀ x, x ∈ l1 → x ∉ l2) → remove_dups (l1 ++ l2) = remove_dups l1 ++ remove_dups l2.
Proof.
  induction l1 as [|x l1 IH]; intros Hd; [done|]. simpl.
  rewrite IH by (intros y Hy; apply Hd; by right).
  destruct (decide_rel elem_of x (l1 ++ l2)) as [Hin|Hin],
           (decide_rel elem_of x l1) as [Hin'|Hin']; try done.
  - apply elem_of_app in Hin as [?|Hin]; [done|]. exfalso. by apply (Hd x); [left|].
  - exfalso. apply Hin. apply elem_of_app. by left.
Qed.

Lemma remove_dups_same {A} `{EqDecision A} (l : list A) (m : A) :
  Forall (λ x, x = m) l → remove_dups l = match l with [] => [] | _ => [m] end.
Proof.
  induction 1 as [|x l -> Hl IH]; [done|]. simpl. rewrite IH.
  destruct l as [|y l]; simpl.
  - destruct (decide_rel elem_of m []) as [Hin|]; [by apply elem_of_nil in Hin|done].
  - apply Forall_cons in Hl as [-> _].
    destruct (decide_rel elem_of m (m :: l)) as [|Hn]; [done|]. exfalso. apply Hn. left.
Qed.

Lemma sjoin_snoc predicate (adm : list adm_row) (a : adm_row) pop :
  sjoin predicate (adm ++ [a]) pop =
  sjoin predicate adm pop ++ block predicate pop (length adm) a.
Proof.
  unfold sjoin. rewrite imap_app, concat_app. simpl.
  by rewrite Nat.add_0_r, app_nil_r.
Qed.

Lemma sjoin_index_bound predicate (adm : list adm_row) pop (k : nat) :
  k ∈ map j_index_left (sjoin predicate adm pop) → (k < length adm)%nat.
Proof.
  intros Hk. apply dec_stable. intros Hn.
  assert (group k (sjoin predicate adm pop) = []) as Hg.
  { rewrite group_sjoin, (lookup_ge_None_2 adm k); [done|lia]. }
  by apply group_nil_iff in Hg.
Qed.

Lemma block_index predicate pop (i : nat) (a : adm_row) :
  Forall (λ x, x = i) (map j_index_left (block predicate pop i a)).
Proof.
  unfold block. rewrite map_map. simpl. apply Forall_forall. intros x Hx.
  apply list_elem_of_In, in_map_iff in Hx as (p & <- & _). done.
Qed.

Lemma groupby_sjoin_table predicate (adm : list adm_row) pop :
  groupby_index_left (sjoin predicate adm pop) =
  omap id (imap (unit_total_row predicate pop) adm).
Proof.
  induction adm as [|a adm IH] using rev_ind; [done|].
  unfold groupby_index_left in *.
  rewrite imap_app, omap_app. simpl. rewrite Nat.add_0_r.
  rewrite sjoin_snoc at 2. rewrite map_app, remove_dups_app_disjoint, omap_app.
  2:{ intros k Hk Hk'. apply sjoin_index_bound in Hk.
      pose proof (block_index predicate pop (length adm) a) as Hb.
      rewrite Forall_forall in Hb. apply Hb in Hk'. lia. }
  f_equal.
  - rewrite <- IH. apply list_omap_ext. apply Forall_Forall2_diag, Forall_forall.
    intros k Hk. apply elem_of_remove_dups, sjoin_index_bound in Hk.
    rewrite !aggregate_sjoin_lookup. by rewrite lookup_app_l.
  - rewrite (remove_dups_same _ (length adm)) by apply block_index.
    pose proof (aggregate_sjoin_lookup predicate (adm ++ [a]) pop (length adm)) as Hagg.
    rewrite lookup_app_r, Nat.sub_diag in Hagg by lia. simpl in Hagg.
    unfold unit_total_row in *.
    destruct (has_match predicate (adm_geometry a) pop) eqn:Hm.
    + destruct (block predicate pop (length adm) a) eqn:Eb.
      { apply block_nil_iff in Eb. congruence. }
      simpl. by rewrite Hagg.
    + apply (block_nil_iff _ _ (length adm)) in Hm. by rewrite Hm.
Qed.

(** [pop_by_adm] is the table of units itself, in its order: a unit that
    no point intersects is left out, every other unit keeps its position
    as label and its own columns, and gets the sum of the weights of the
    points that intersect it. *)
Theorem pop_by_adm_table (adm : list adm_row) (pop : list pop_point) :
  pop_by_adm adm pop = omap id (imap (unit_total_row intersects_point pop) adm).
Proof. apply groupby_sjoin_table. Qed.

Section GrandTotal.

Local Open Scope Q_scope.

Variable predicate : geom → point → bool.

Lemma matching_weight_cons (g : geom) (p : pop_point) (pop : list pop_point) :
  matching_weight predicate g (p :: pop) =
  if predicate g (pt_geometry p)
  then pt_value p + matching_weight predicate g pop
  else matching_weight predicate g pop.
Proof. unfold matching_weight. simpl. by destruct (predicate g (pt_geometry p)). Qed.

Lemma matching_weight_no_match (g : geom) (pop : list pop_point) :
  has_match predicate g pop = false → matching_weight predicate g pop = 0.
Proof.
  unfold has_match, matching_weight. induction pop as [|p pop IH]; simpl; [done|].
  destruct (predicate g (pt_geometry p)); simpl; [done|exact IH].
Qed.

Lemma table_totals_sum (adm : list adm_row) (pop : list pop_point) :
  Qsum (map Total_population_by_adm2 (omap id (imap (unit_total_row predicate pop) adm))) ==
  Qsum (map (λ a, matching_weight predicate (adm_geometry a) pop) adm).
Proof.
  induction adm as [|a adm IH] using rev_ind; [reflexivity|].
  rewrite imap_app, omap_app, !map_app, !Qsum_app, IH. simpl.
  unfold unit_total_row. destruct (has_match predicate (adm_geometry a) pop) eqn:Hm; simpl.
  - reflexivity.
  - by rewrite (matching_weight_no_match _ _ Hm).
Qed.

(** Summing over the units what each point brings them is summing over the
    points what each brings, once per unit that holds it. *)
Lemma matching_weight_exchange (adm : list adm_row) (pop : list pop_point) :
  Qsum (map (λ a, matching_weight predicate (adm_geometry a) pop) adm) ==
  Qsum (map (λ p, pt_value p * inject_Z (Z.of_nat (matches predicate adm p))) pop).
Proof.
  induction pop as [|p pop IH]; simpl.
  - induction adm as [|a adm IHa]; simpl; [reflexivity|]. rewrite IHa. reflexivity.
  - rewrite <- IH. clear IH. unfold matches.
    induction adm as [|a adm IHa]; simpl; [ring|].
    rewrite matching_weight_cons.
    destruct (predicate (adm_geometry a) (pt_geometry p)); simpl length.
    + rewrite IHa, Nat2Z.inj_succ. unfold Z.succ. rewrite inject_Z_plus. ring.
    + rewrite IHa. ring.
Qed.

End GrandTotal.

(** The totals of [pop_by_adm] add up to the weights of the points, each
    counted once per unit whose polygon it intersects: the sum is the total
    weight when every point intersects exactly one unit, and at most the
    total weight when no weight is negative and no point intersects two
    units. *)
Theorem unit_totals_sum (adm : list adm_row) (pop : list pop_point) :
  let counted := Qsum (map Total_population_by_adm2 (pop_by_adm adm pop)) in
  (counted ==
   Qsum (map (λ p, pt_value p * inject_Z (Z.of_nat (matches intersects_point adm p))) pop))%Q ∧
  (Forall (λ p, matches intersects_point adm p = 1%nat) pop →
   (counted == total_weight pop)%Q) ∧
  (Forall (λ p, (0 <= pt_value p)%Q ∧ (matches intersects_point adm p <= 1)%nat) pop →
   (counted <= total_weight pop)%Q).
Proof.
  intros counted.
  assert (counted ==
    Qsum (map (λ p, pt_value p * inject_Z (Z.of_nat (matches intersects_point adm p))) pop))%Q
    as Heq.
  { unfold counted, pop_by_adm, adm_sjoin_pop.
    by rewrite groupby_sjoin_table, table_totals_sum, matching_weight_exchange. }
  split; [exact Heq|]. split; intros Hall; rewrite Heq; unfold total_weight; clear Heq counted.
  - induction Hall as [|p pop Hp _ IH]; simpl; [reflexivity|].
    rewrite IH, Hp. simpl. ring.
  - induction Hall as [|p pop [Hp Hm] _ IH]; simpl; [apply Qle_refl|].
    apply Qplus_le_compat; [|exact IH].
    assert (matches intersects_point adm p = 0 ∨ matches intersects_point adm p = 1)%nat
      as [->| ->] by lia; simpl.
    + rewrite Qmult_0_r. exact Hp.
    + rewrite Qmult_1_r. apply Qle_refl.
Qed.

Lemma unit_totals_sum_witness :
  let adm := [Tables.full_extent; Tables.far_away] in
  let pop := pop_gis identity Tables.raster_A in
  (Qsum (map Total_population_by_adm2 (pop_by_adm adm pop)) == total_weight pop)%Q ∧
  (Qsum (map Total_population_by_adm2 (pop_by_adm adm pop)) <= total_weight pop)%Q.
Proof.
  intros adm pop.
  pose proof (unit_totals_sum adm pop) as (_ & H1 & H2). split.
  - apply H1. vm_compute. repeat constructor.
  - apply H2. vm_compute. repeat constructor; discriminate.
Defined.

(** ** Overlay, stored values and rounding (lines 99-128) *)

(** Every pair that the overlay keeps has a record in [final_data] under
    the same key, and a positive overlapping area: the alignment of line
    109 drops no row of [overlay_data]. *)
Theorem overlay_rows_have_records `{Measure} (units : list unit_row) (bands : list cyclone_row)
    (o : overlay_row) :
  o ∈ overlay units bands →
  (0 < overlapping_area o)%Q ∧
  ∃ r, r ∈ final_data units bands ∧
       f_index_left r = o_index_left o ∧ f_wind_speed r = o_wind_speed o.
Proof.
  intros Ho. apply elem_of_overlay in Ho as (u & b & Hu & Hb & Hne & ->). simpl.
  split; [by apply overlap_area_positive|].
  assert (intersects (adm_geometry (unit_adm u)) (geometry b) = true) as Hi.
  { destruct (intersects _ _) eqn:E; [done|]. by apply not_intersects_disjoint in E. }
  unfold final_data, final_data_ratio. rewrite map_map.
  eexists. split.
  - apply list_elem_of_In, in_map, list_elem_of_In.
    apply elem_of_sjoin_bands. exists u, b. eauto.
  - done.
Qed.

Lemma overlay_rows_have_records_witness :
  let units := pop_by_adm [Tables.full_extent] (pop_gis identity Tables.raster_A) in
  let bands := [Tables.row 120 (box 0 0 1 2)] in
  let o := {| o_index_left := 0; o_wind_speed := 120; o_geometry := box 0 0 1 2;
              overlapping_area := overlap_area (box 0 0 2 2) (box 0 0 1 2) |} in
  (0 < overlapping_area o)%Q ∧
  ∃ r, r ∈ final_data units bands ∧
       f_index_left r = o_index_left o ∧ f_wind_speed r = o_wind_speed o.
Proof.
  intros units bands o. apply (overlay_rows_have_records units bands o).
  assert (overlay units bands = [o]) as -> by (vm_compute; reflexivity). left.
Defined.

Lemma people_column_share `{Measure} (units : list unit_row) (bands : list cyclone_row)
    (u : unit_row) (b : cyclone_row) (ws : Q) :
  NoDup (index_left <$> units) → u ∈ units →
  List.filter (λ r, Qeq_bool (wind_speed r) ws) bands = [b] →
  people_column (band_series ws (final_data units bands)) (index_left u) =
  stored_share (geometry b) u.
Proof.
  intros Hnd Hu Hb. unfold people_column, stored_share. cbv zeta.
  rewrite (band_series_lookup units bands Hnd u b ws Hu Hb).
  destruct (intersects _ _) eqn:Hi.
  - unfold ratio. cbv zeta. case_decide as He; [done|].
    by destruct (fdiv_overlap (adm_geometry (unit_adm u)) (geometry b) He) as [-> _].
  - by rewrite decide_True by (by apply not_intersects_disjoint).
Qed.



Section Rounding.

Local Open Scope Q_scope.



Lemma rint_nonneg (x : Q) : 0 <= x → (0 <= rint x)%Z.
Proof.
  intros Hx. unfold rint.
  assert (0 <= Qfloor x)%Z as Hf.
  { change 0%Z with (Qfloor 0). by apply Qfloor_resp_le. }
  destruct (x - inject_Z (Qfloor x) ?= 1 # 2); [destruct (Z.even _)|..]; lia.
Qed.

Lemma round2_nonneg (q : Q) : 0 <= q → 0 <= round2 q.
Proof.
  intros Hq. unfold round2.
  assert (0 <= rint (q * 100))%Z as Hr.
  { apply rint_nonneg. apply Qmult_le_0_compat; [done|discriminate]. }
  apply Qle_shift_div_l; [reflexivity|]. rewrite Qmult_0_l.
  change 0 with (inject_Z 0). by rewrite <- Zle_Qle.
Qed.

End Rounding.



Section Signs.

Local Open Scope Q_scope.

Lemma stored_share_cases `{Measure} (g : geom) (u : unit_row) :
  stored_share g u = NaN ∨
  ∃ c, 0 <= c ∧ stored_share g u = Fin (round2 (c * Total_population_by_adm2 u)).
Proof.
  unfold stored_share. cbv zeta. case_decide as He; [by left|]. right.
  eexists. split; [|reflexivity].
  destruct (fdiv_overlap (adm_geometry (unit_adm u)) g He) as [_ Hpos].
  by apply Qlt_le_weak.
Qed.

Lemma percent_column_sign (c total : Q) :
  0 <= total → 0 <= c →
  percent_column (Fin (round2 (c * total))) total = NaN ∨
  ∃ q, percent_column (Fin (round2 (c * total))) total = Fin q ∧ 0 <= q.
Proof.
  intros HT Hc. unfold percent_column, fdiv.
  destruct (total ?= 0) eqn:E.
  - left. apply Qeq_alt in E.
    assert ((round2 (c * total) ?= 0) = Eq) as ->; [|done].
    apply Qeq_alt, round2_zero. rewrite E. apply Qmult_0_r.
  - apply Qlt_alt in E. exfalso. by apply (Qlt_not_le _ _ E).
  - right. apply Qgt_alt in E. simpl. eexists. split; [reflexivity|].
    apply round2_nonneg. apply Qmult_le_0_compat; [|discriminate].
    apply Qle_shift_div_l; [done|]. rewrite Qmult_0_l.
    apply round2_nonneg. by apply Qmult_le_0_compat.
Qed.

End Signs.

(** When no point has a negative weight, the three band populations and
    the three percentages of every row of the table are unset (NaN) or
    finite and not negative: none is negative, none is infinite. *)
Theorem table_values_not_negative `{Measure} (adm : list adm_row) (pop : list pop_point)
    (t bands : list cyclone_row) (o : out_row) :
  Forall (λ p, (0 <= pt_value p)%Q) pop →
  band_partition t = Ok bands →
  o ∈ assemble (pop_by_adm adm pop) bands →
  Forall (λ x, x = NaN ∨ ∃ q, x = Fin q ∧ (0 <= q)%Q)
    [People_at_60kmph o; People_at_90kmph o; People_at_120kmph o;
     pct_people_at_60kmph o; pct_people_at_90kmph o; pct_people_at_120kmph o].
Proof.
  intros Hpop Hb Ho. apply elem_of_assemble in Ho as (u & Hu & ->).
  pose proof (total_nonneg adm pop u Hpop Hu) as HT.
  pose proof (groupby_NoDup (adm_sjoin_pop adm pop)) as Hnd.
  fold (pop_by_adm adm pop) in Hnd.
  apply band_partition_rows in Hb
    as (r60 & r90 & r120 & _ & _ & _ & _ & F60 & F90 & F120).
  unfold assemble_row. cbn [People_at_60kmph People_at_90kmph People_at_120kmph
    pct_people_at_60kmph pct_people_at_90kmph pct_people_at_120kmph].
  rewrite (people_column_share _ _ u _ 60 Hnd Hu F60),
    (people_column_share _ _ u _ 90 Hnd Hu F90),
    (people_column_share _ _ u _ 120 Hnd Hu F120).
  assert (∀ g, (stored_share g u = NaN ∨ ∃ q, stored_share g u = Fin q ∧ (0 <= q)%Q) ∧
               (percent_column (stored_share g u) (Total_population_by_adm2 u) = NaN ∨
                ∃ q, percent_column (stored_share g u) (Total_population_by_adm2 u) = Fin q
                     ∧ (0 <= q)%Q)) as Hg.
  { intros g. destruct (stored_share_cases g u) as [->|(c & Hc & ->)].
    - split; by left.
    - split; [|by apply percent_column_sign].
      right. eexists. split; [done|]. apply round2_nonneg. by apply Qmult_le_0_compat. }
  repeat (apply Forall_cons_2; [apply Hg|]). constructor.
Qed.

Lemma table_values_not_negative_witness :
  let adm := [Tables.full_extent] in
  let pop := pop_gis identity Tables.raster_A in
  let bands := bands_spec Tables.three_nested in
  let o := assemble_row (final_data (pop_by_adm adm pop) bands)
             {| index_left := 0; unit_adm := Tables.full_extent;
                Total_population_by_adm2 := 100 |} in
  Forall (λ x, x = NaN ∨ ∃ q, x = Fin q ∧ (0 <= q)%Q)
    [People_at_60kmph o; People_at_90kmph o; People_at_120kmph o;
     pct_people_at_60kmph o; pct_people_at_90kmph o; pct_people_at_120kmph o].
Proof.
  intros adm pop bands o.
  apply (table_values_not_negative adm pop Tables.three_nested bands o).
  - repeat constructor; discriminate.
  - vm_compute. reflexivity.
  - apply elem_of_assemble. eexists. split; [|reflexivity].
    assert (pop_by_adm adm pop = [ {| index_left := 0; unit_adm := Tables.full_extent;
                                      Total_population_by_adm2 := 100 |} ]) as ->
      by (vm_compute; reflexivity).
    left.
Defined.

(** ** Population per wind band (lines 85-96) *)

Section PerBand.

Local Open Scope Q_scope.

Lemma insert_key_elem (k x : Q) (keys : list Q) :
  x ∈ insert_key k keys → x = k ∨ x ∈ keys.
Proof.
  induction keys as [|k' keys IH]; simpl.
  - intros ->%list_elem_of_singleton. by left.
  - destruct (Qeq_bool k k'); [by right|].
    destruct (Qle_bool k k').
    + intros [->|H]%elem_of_cons; [by left|by right].
    + intros [->|H]%elem_of_cons; [right; left|].
      destruct (IH H) as [->|?]; [by left|right; by right].
Qed.

Lemma insert_key_covers (k x : Q) (keys : list Q) :
  (k == x ∨ ∃ y, y ∈ keys ∧ y == x) → ∃ y, y ∈ insert_key k keys ∧ y == x.
Proof.
  induction keys as [|k' keys IH]; simpl.
  - intros [H|(y & Hy & _)]; [|by apply elem_of_nil in Hy]. exists k. split; [left|done].
  - destruct (Qeq_bool k k') eqn:E.
    + apply Qeq_bool_iff in E. intros [H|H]; [|done].
      exists k'. split; [left|]. by rewrite <- E.
    + destruct (Qle_bool k k').
      * intros [H|(y & Hy & Hyx)]; [exists k; split; [left|done]|].
        exists y. split; [by right|done].
      * intros [H|(y & Hy & Hyx)].
        -- destruct IH as (z & Hz & Hzx); [by left|]. exists z. split; [by right|done].
        -- apply elem_of_cons in Hy as [->|Hy]; [exists k'; split; [left|done]|].
           destruct IH as (z & Hz & Hzx); [right; by exists y|].
           exists z. split; [by right|done].
Qed.

Lemma insert_key_sorted (k : Q) (keys : list Q) :
  StronglySorted Qlt keys → StronglySorted Qlt (insert_key k keys).
Proof.
  induction 1 as [|k' keys Hs IH Hall]; simpl; [by repeat constructor|].
  destruct (Qeq_bool k k') eqn:E; [by constructor|].
  destruct (Qle_bool k k') eqn:E'.
  - apply Qle_bool_iff in E'.
    assert (k < k') as Hlt.
    { apply Qle_lteq in E' as [?|Heq]; [done|]. apply Qeq_bool_iff in Heq. congruence. }
    constructor; [by constructor|]. constructor; [done|].
    eapply Forall_impl; [exact Hall|]. intros y Hy. simpl in Hy. by eapply Qlt_trans.
  - assert (k' < k) as Hlt.
    { apply Qnot_le_lt. intros H. apply Qle_bool_iff in H. congruence. }
    constructor; [done|]. apply Forall_forall. intros y Hy.
    apply insert_key_elem in Hy as [->|Hy]; [done|].
    by apply (proj1 (Forall_forall _ _) Hall).
Qed.

Lemma wind_speed_keys_sorted (rows : list band_joined_row) :
  StronglySorted Qlt (wind_speed_keys rows).
Proof.
  unfold wind_speed_keys. induction rows as [|r rows IH]; simpl; [constructor|].
  by apply insert_key_sorted.
Qed.

Lemma wind_speed_keys_sound (rows : list band_joined_row) (x : Q) :
  x ∈ wind_speed_keys rows → ∃ r, r ∈ rows ∧ b_wind_speed r = x.
Proof.
  unfold wind_speed_keys. induction rows as [|r rows IH]; simpl.
  - by intros ?%elem_of_nil.
  - intros [->|H]%insert_key_elem; [exists r; split; [left|done]|].
    destruct (IH H) as (r' & Hr' & <-). exists r'. split; [by right|done].
Qed.

Lemma wind_speed_keys_complete (rows : list band_joined_row) (r : band_joined_row) :
  r ∈ rows → ∃ y, y ∈ wind_speed_keys rows ∧ y == b_wind_speed r.
Proof.
  unfold wind_speed_keys. induction rows as [|r' rows IH]; simpl.
  - by intros ?%elem_of_nil.
  - intros [->|H]%elem_of_cons; apply insert_key_covers; [by left|right; by apply IH].
Qed.

(** Looking a threshold up in the grouped table: absent when no joined
    row has it, and else the rounded sum of the values of its rows. *)
Lemma lookup_groupby_wind_speed (rows : list band_joined_row) (k : Q) :
  lookup_band k (groupby_wind_speed rows) =
  match wind_speed_group k rows with
  | [] => None
  | grp => Some (round2 (Qsum (map b_value grp)))
  end.
Proof.
  unfold lookup_band, groupby_wind_speed. rewrite find_fmap. simpl.
  destruct (List.find (λ x, Qeq_bool x k) (wind_speed_keys rows)) as [k'|] eqn:E; simpl.
  - apply find_some in E as [Hin Hk]. apply Qeq_bool_iff in Hk.
    assert (wind_speed_group k' rows = wind_speed_group k rows) as ->.
    { apply List.filter_ext. intros r. by apply Qeq_bool_proper_r. }
    apply list_elem_of_In, wind_speed_keys_sound in Hin as (r & Hr & Hws).
    destruct (wind_speed_group k rows) as [|r0 grp] eqn:Eg; [|done].
    exfalso. apply (filter_nil_elem _ _ r Eg) in Hr.
    rewrite Hws in Hr. apply Qeq_bool_iff in Hk. congruence.
  - destruct (wind_speed_group k rows) as [|r grp] eqn:Eg; [done|]. exfalso.
    assert (r ∈ rows ∧ Qeq_bool (b_wind_speed r) k = true) as [Hr Hk].
    { assert (In r (wind_speed_group k rows)) as Hin by (rewrite Eg; by left).
      apply filter_In in Hin as [? ?]. split; [by apply list_elem_of_In|done]. }
    apply wind_speed_keys_complete in Hr as (y & Hy & Hyr).
    pose proof (find_none _ _ E y (proj1 (list_elem_of_In _ _) Hy)) as Hn.
    simpl in Hn. apply Qeq_bool_iff in Hk.
    assert (Qeq_bool y k = true) as Ht; [|congruence].
    apply Qeq_bool_iff. by rewrite Hyr.
Qed.

(** The joined rows of a threshold come from the band rows of that
    threshold, one per point inside the band. *)
Lemma group_sjoin_contains (bands : list cyclone_row) (pop : list pop_point) (k : Q) :
  map b_value (wind_speed_group k (sjoin_contains bands pop)) =
  List.filter (λ b, Qeq_bool (wind_speed b) k) bands ≫=
    (λ b, map pt_value (List.filter (λ p, contains_point (geometry b) (pt_geometry p)) pop)).
Proof.
  unfold sjoin_contains, wind_speed_group.
  induction bands as [|b bands IH]; [done|].
  change ((b :: bands) ≫= ?f) with (f b ++ (bands ≫= f)).
  rewrite List.filter_app, map_app, IH. cbn [List.filter].
  assert (∀ pts : list pop_point,
    map b_value (List.filter (λ r, Qeq_bool (b_wind_speed r) k)
      (pts ≫= λ p, if contains_point (geometry b) (pt_geometry p)
                   then [ {| b_wind_speed := wind_speed b; b_value := pt_value p |} ]
                   else [])) =
    if Qeq_bool (wind_speed b) k
    then map pt_value (List.filter (λ p, contains_point (geometry b) (pt_geometry p)) pts)
    else []) as Hb.
  { induction pts as [|p pts IHp]; [by destruct (Qeq_bool _ _)|].
    change ((p :: pts) ≫= ?f) with (f p ++ (pts ≫= f)).
    rewrite List.filter_app, map_app, IHp. cbn [List.filter].
    destruct (contains_point (geometry b) (pt_geometry p)); cbn [List.filter b_wind_speed];
      destruct (Qeq_bool (wind_speed b) k); done. }
  rewrite Hb. destruct (Qeq_bool (wind_speed b) k); [|done].
  change ((b :: ?l) ≫= ?f) with (f b ++ (l ≫= f)). done.
Qed.

End PerBand.

(** [pop_by_cyclone] lists the thresholds in ascending order, each once;
    for a threshold that selects a single band it holds, rounded to two
    decimals, the sum of the weights of the points inside that band, and
    no row at all when no point is inside it. *)
Theorem pop_by_cyclone_totals (bands : list cyclone_row) (pop : list pop_point) :
  StronglySorted Qlt (fst <$> pop_by_cyclone bands pop) ∧
  ∀ (ws : Q) (b : cyclone_row),
    List.filter (λ r, Qeq_bool (wind_speed r) ws) bands = [b] →
    lookup_band ws (pop_by_cyclone bands pop) =
    if has_match contains_point (geometry b) pop
    then Some (round2 (matching_weight contains_point (geometry b) pop))
    else None.
Proof.
  split.
  - unfold pop_by_cyclone, groupby_wind_speed.
    assert (∀ (f : Q → Q) (l : list Q), fst <$> map (λ k, (k, f k)) l = l) as Hfst.
    { intros f l. induction l as [|k l IH]; [done|]. simpl. by f_equal. }
    rewrite Hfst. apply wind_speed_keys_sorted.
  - intros ws b Hb. unfold pop_by_cyclone. rewrite lookup_groupby_wind_speed.
    pose proof (group_sjoin_contains bands pop ws) as Hv. rewrite Hb in Hv.
    change ([b] ≫= ?f) with (f b ++ []) in Hv. rewrite app_nil_r in Hv.
    unfold matching_weight, has_match.
    destruct (wind_speed_group ws (sjoin_contains bands pop)) as [|r grp] eqn:Eg.
    + simpl in Hv. destruct (List.filter _ pop) as [|p l] eqn:Ef; [|done].
      assert (existsb (λ p, contains_point (geometry b) (pt_geometry p)) pop = false) as ->;
        [|done].
      destruct (existsb _ pop) eqn:Ee; [|done]. apply existsb_exists in Ee as (p & Hp & Hc).
      assert (In p (List.filter (λ p, contains_point (geometry b) (pt_geometry p)) pop))
        as Hin by (by apply filter_In).
      by rewrite Ef in Hin.
    + rewrite Hv.
      destruct (List.filter (λ p, contains_point (geometry b) (pt_geometry p)) pop)
        as [|p l] eqn:Ef; [done|].
      assert (existsb (λ p, contains_point (geometry b) (pt_geometry p)) pop = true) as ->.
      { apply existsb_exists. exists p.
        assert (In p (List.filter (λ p, contains_point (geometry b) (pt_geometry p)) pop))
          as Hin by (rewrite Ef; by left).
        by apply filter_In in Hin. }
      done.
Qed.

Lemma pop_by_cyclone_totals_witness :
  let bands := bands_spec Tables.three_nested in
  let pop := pop_gis identity Tables.raster_A in
  lookup_band 120 (pop_by_cyclone bands pop) =
  if has_match contains_point (box 0 0 1 1) pop
  then Some (round2 (matching_weight contains_point (box 0 0 1 1) pop))
  else None.
Proof.
  intros bands pop.
  apply (proj2 (pop_by_cyclone_totals bands pop) 120%Q (Tables.row 120 (box 0 0 1 1))).
  reflexivity.
Defined.

Section CountedOnce.

Local Open Scope Q_scope.

Lemma cells_at_nonempty (p : point) : ∃ c, c ∈ cells_at p.
Proof.
  assert (∀ q, Qfloor q ∈ slots q) as Hs.
  { intros q. unfold slots. destruct (Qeq_bool _ _); [right; left|left]. }
  exists (Qfloor (px p), Qfloor (py p)). unfold cells_at.
  apply list_elem_of_bind. exists (Qfloor (px p)). split; [|apply Hs].
  apply list_elem_of_bind. exists (Qfloor (py p)). split; [left|apply Hs].
Qed.

(** A point inside two polygons lies in a square of both. *)
Lemma contains_point_disjoint (g h : geom) (p : point) :
  g ∩ h = ∅ → contains_point g p = true → contains_point h p = false.
Proof.
  intros Hd Hg. destruct (contains_point h p) eqn:Hh; [|done]. exfalso.
  destruct (cells_at_nonempty p) as [c Hc]. apply list_elem_of_In in Hc.
  unfold contains_point in *. rewrite forallb_forall in Hg, Hh.
  specialize (Hg c Hc). specialize (Hh c Hc).
  apply bool_decide_eq_true in Hg, Hh. set_solver.
Qed.

Lemma contained_weights_bound (g1 g2 g3 : geom) (pop : list pop_point) :
  g1 ∩ g2 = ∅ → g2 ∩ g3 = ∅ → g1 ∩ g3 = ∅ →
  Forall (λ p, 0 <= pt_value p) pop →
  matching_weight contains_point g1 pop + matching_weight contains_point g2 pop
  + matching_weight contains_point g3 pop <= total_weight pop.
Proof.
  intros H12 H23 H13. induction 1 as [|p pop Hp _ IH].
  - unfold matching_weight, total_weight. simpl. discriminate.
  - rewrite !matching_weight_cons. unfold total_weight in *. simpl.
    destruct (contains_point g1 (pt_geometry p)) eqn:E1.
    + rewrite (contains_point_disjoint g1 g2 _ H12 E1),
        (contains_point_disjoint g1 g3 _ H13 E1). lra.
    + destruct (contains_point g2 (pt_geometry p)) eqn:E2.
      * rewrite (contains_point_disjoint g2 g3 _ H23 E2). lra.
      * destruct (contains_point g3 (pt_geometry p)); lra.
Qed.

End CountedOnce.

(** With nested polygons and no negative weight, the sums that line 90
    forms for the bands of 60, 90 and 120 count every point at most once:
    together they do not exceed the total weight of the points. *)
Theorem band_sums_count_once (t bands : list cyclone_row) (pop : list pop_point) :
  nested t →
  band_partition t = Ok bands →
  Forall (λ p, (0 <= pt_value p)%Q) pop →
  let rows := sjoin_contains bands pop in
  (Qsum (map b_value (wind_speed_group 60 rows))
   + Qsum (map b_value (wind_speed_group 90 rows))
   + Qsum (map b_value (wind_speed_group 120 rows))
   <= total_weight pop)%Q.
Proof.
  intros Hn Hb Hpop rows. unfold rows.
  apply band_partition_rows in Hb
    as (r60 & r90 & r120 & I90 & I120 & H90 & H120 & F60 & F90 & F120).
  assert (geometry r120 ⊆ geometry r90) as Hsub.
  { apply (nested_subseteq t); [done..|]. rewrite H90, H120. reflexivity. }
  rewrite !group_sjoin_contains, F60, F90, F120.
  repeat (change ([?b] ≫= ?f) with (f b ++ [])). rewrite !app_nil_r.
  cbn [geometry].
  apply (contained_weights_bound (geometry r60 ∖ geometry r90)
           (geometry r90 ∖ geometry r120) (geometry r120)); [set_solver..|done].
Qed.

Lemma band_sums_count_once_witness :
  let pop := pop_gis identity Tables.raster_A in
  let rows := sjoin_contains (bands_spec Tables.three_nested) pop in
  (Qsum (map b_value (wind_speed_group 60 rows))
   + Qsum (map b_value (wind_speed_group 90 rows))
   + Qsum (map b_value (wind_speed_group 120 rows))
   <= total_weight pop)%Q.
Proof.
  intros pop.
  apply (band_sums_count_once Tables.three_nested (bands_spec Tables.three_nested) pop).
  - apply (bool_decide_unpack _). vm_compute. exact I.
  - vm_compute. reflexivity.
  - repeat constructor; discriminate.
Defined.

(** ** The script as a whole *)




(** ** Shapes of the raster (lines 17-26) *)

Section Shapes.

Local Open Scope Q_scope.

Lemma adjacent4_sym (a b : pixel) : adjacent4 a b = adjacent4 b a.
Proof.
  unfold adjacent4. f_equal.
  rewrite <- (Z.abs_opp (prow a - prow b)), <- (Z.abs_opp (pcol a - pcol b)).
  f_equal; f_equal; lia.
Qed.

Lemma same_value_sym (a b : pixel) : same_value a b = same_value b a.
Proof.
  unfold same_value. destruct (Qeq_bool (pval b) (pval a)) eqn:E.
  - apply Qeq_bool_iff. apply Qeq_bool_iff in E. by symmetry.
  - destruct (Qeq_bool (pval a) (pval b)) eqn:E'; [|done].
    apply Qeq_bool_iff in E'. symmetry in E'. apply Qeq_bool_iff in E'. congruence.
Qed.

Lemma joins_member (region : list pixel) (p q : pixel) :
  p ∈ region → adjacent4 p q = true → same_value p q = true → joins region q = true.
Proof.
  intros Hp Ha Hs. unfold joins. apply existsb_exists. exists p.
  split; [by apply list_elem_of_In|]. by rewrite Ha, Hs.
Qed.

Lemma filter_length_split {A} (f : A → bool) (l : list A) :
  (length (List.filter f l) + length (List.filter (λ x, negb (f x)) l) = length l)%nat.
Proof. rewrite <- length_app. apply Permutation_length, filter_split. Qed.

(** With enough fuel the flood fill stops only when no pixel that is left
    touches the region with the region's value. *)
Lemma grow_closed (fuel : nat) (region rest region' rest' : list pixel) :
  (length rest <= fuel)%nat →
  grow fuel region rest = (region', rest') →
  ∀ r, r ∈ rest' → joins region' r = false.
Proof.
  revert region rest. induction fuel as [|n IH]; intros region rest Hlen; simpl.
  - intros [= <- <-] r Hr. destruct rest; [by apply elem_of_nil in Hr|simpl in Hlen; lia].
  - destruct (List.filter (joins region) rest) as [|x near] eqn:E.
    + intros [= <- <-] r Hr. by eapply filter_nil_elem.
    + apply IH. pose proof (filter_length_split (joins region) rest) as Hl.
      rewrite E in Hl. simpl in Hl. lia.
Qed.

Lemma shapes_from_merge (fuel : nat) (pixels : list pixel) (p q : pixel) :
  (length pixels <= fuel)%nat →
  p ∈ pixels → q ∈ pixels → adjacent4 p q = true → same_value p q = true →
  ∃ s, s ∈ shapes_from fuel pixels ∧ p ∈ s.1 ∧ q ∈ s.1.
Proof.
  revert pixels. induction fuel as [|n IH]; intros [|p0 rest] Hlen Hp Hq Ha Hs;
    try (by apply elem_of_nil in Hp); simpl in Hlen; [lia|].
  simpl. destruct (grow (length rest) [p0] rest) as [region rest'] eqn:E.
  pose proof (grow_closed _ _ _ _ _ (Nat.le_refl _) E) as Hclosed.
  apply grow_spec in E as (Hperm & Hl & _). simpl in Hperm, Hl.
  assert (length rest' <= n)%nat as Hn.
  { apply Permutation_length in Hperm. rewrite length_app in Hperm. simpl in Hperm. lia. }
  assert (∀ x, x ∈ p0 :: rest → x ∈ region ∨ x ∈ rest') as Hsplit.
  { intros x Hx. apply elem_of_app. by rewrite Hperm. }
  destruct (Hsplit p Hp) as [Hpr|Hpr], (Hsplit q Hq) as [Hqr|Hqr].
  - exists (region, pval p0). split; [left|done].
  - pose proof (Hclosed q Hqr) as Hc.
    rewrite (joins_member region p q Hpr Ha Hs) in Hc. discriminate.
  - rewrite adjacent4_sym in Ha. rewrite same_value_sym in Hs.
    pose proof (joins_member region q p Hqr Ha Hs) as Hj.
    rewrite (Hclosed p Hpr) in Hj. discriminate.
  - destruct (IH rest' Hn Hpr Hqr Ha Hs) as (s & Hs' & ?). exists s. split; [by right|done].
Qed.

Lemma grow_alone (fuel : nat) (p : pixel) (rest : list pixel) :
  (∀ r, r ∈ rest → adjacent4 p r && same_value p r = false) →
  grow fuel [p] rest = ([p], rest).
Proof.
  intros H. destruct fuel as [|n]; [done|]. simpl.
  assert (List.filter (joins [p]) rest = []) as ->; [|done].
  induction rest as [|r rest IH]; [done|]. simpl.
  rewrite (H r) by left. simpl. apply IH. intros x Hx. apply H. by right.
Qed.

Lemma shapes_from_single (fuel : nat) (pixels : list pixel) :
  (length pixels <= fuel)%nat →
  (∀ p q, p ∈ pixels → q ∈ pixels → adjacent4 p q = true → same_value p q = false) →
  shapes_from fuel pixels = map (λ p, ([p], pval p)) pixels.
Proof.
  revert pixels. induction fuel as [|n IH]; intros [|p rest] Hlen H; simpl in *;
    try done; try lia.
  rewrite grow_alone.
  - f_equal. apply IH; [lia|]. intros a b Ha Hb. apply H; by right.
  - intros r Hr. destruct (adjacent4 p r) eqn:Ea; [|done]. simpl.
    apply H; [left|by right|done].
Qed.

Lemma shape_values_nonneg (img : list (list (option Q))) :
  Forall (λ p, 0 <= pval p) (unmasked img) →
  Forall (λ s, 0 <= (inject_Z (Z.of_nat (length s.1)) - 1) * s.2) (shapes img).
Proof.
  intros Hpos. unfold shapes. cbv zeta.
  destruct (shapes_from_spec (length (unmasked img)) (unmasked img)) as [Hperm Hval]; [lia|].
  apply Forall_forall. intros [region v] Hs.
  pose proof (proj1 (Forall_forall _ _) Hval _ Hs) as [Hne Hv]. simpl in *.
  destruct region as [|q region]; [done|].
  assert (q ∈ unmasked img) as Hq.
  { apply list_elem_of_In. apply (Permutation_in _ Hperm). apply in_concat.
    exists (q :: region). split; [|by left].
    apply in_map_iff. exists (q :: region, v). split; [done|by apply list_elem_of_In]. }
  apply Forall_cons in Hv as [Hv _].
  apply Qmult_le_0_compat.
  - cbn [length]. rewrite Nat2Z.inj_succ. unfold Z.succ. rewrite inject_Z_plus.
    assert (0 <= inject_Z (Z.of_nat (length region))) as Hl.
    { change 0 with (inject_Z 0). rewrite <- Zle_Qle. lia. }
    change (inject_Z 1) with 1. lra.
  - rewrite <- Hv. by apply (proj1 (Forall_forall _ _) Hpos).
Qed.

End Shapes.

(** [shapes] splits the non-masked cells: every such cell lies in exactly
    one shape, no shape is empty, and all cells of a shape hold the value
    of the shape. *)
Theorem shapes_partition (img : list (list (option Q))) :
  Permutation (concat (map fst (shapes img))) (unmasked img) ∧
  Forall (λ s, s.1 ≠ [] ∧ Forall (λ q, (pval q == s.2)%Q) s.1) (shapes img).
Proof. unfold shapes. cbv zeta. apply shapes_from_spec. lia. Qed.

(** Two non-masked cells that share an edge and hold the same value always
    end up in one shape, hence in one point of [pop_gis]. *)
Theorem shapes_merge_equal_neighbours (img : list (list (option Q))) (p q : pixel) :
  p ∈ unmasked img → q ∈ unmasked img →
  adjacent4 p q = true → same_value p q = true →
  ∃ s, s ∈ shapes img ∧ p ∈ s.1 ∧ q ∈ s.1.
Proof. intros. unfold shapes. cbv zeta. by apply shapes_from_merge. Qed.

Lemma shapes_merge_equal_neighbours_witness :
  let p := {| prow := 0; pcol := 0; pval := 5 |} in
  let q := {| prow := 0; pcol := 1; pval := 5 |} in
  ∃ s, s ∈ shapes Tables.raster_pair ∧ p ∈ s.1 ∧ q ∈ s.1.
Proof.
  intros p q. apply (shapes_merge_equal_neighbours Tables.raster_pair p q).
  - left.
  - right. left.
  - reflexivity.
  - reflexivity.
Defined.

(** When no two non-masked cells that share an edge hold the same value,
    [shapes] yields one shape per cell, [pop_gis] one point per cell with
    the cell's value as weight, and the weights add up to the raster. *)
Theorem shapes_one_per_cell t (img : list (list (option Q))) :
  (∀ p q, p ∈ unmasked img → q ∈ unmasked img →
          adjacent4 p q = true → same_value p q = false) →
  shapes img = map (λ p, ([p], pval p)) (unmasked img) ∧
  map pt_value (pop_gis t img) = map pval (unmasked img) ∧
  (total_weight (pop_gis t img) == raster_mass img)%Q.
Proof.
  intros H.
  assert (shapes img = map (λ p, ([p], pval p)) (unmasked img)) as Hs.
  { unfold shapes. cbv zeta. by apply shapes_from_single. }
  assert (map pt_value (pop_gis t img) = map pval (unmasked img)) as Hv.
  { unfold pop_gis. rewrite Hs, !map_map. done. }
  split; [exact Hs|]. split; [exact Hv|].
  unfold total_weight, raster_mass. rewrite Hv. reflexivity.
Qed.

Lemma shapes_one_per_cell_witness :
  shapes Tables.raster_A = map (λ p, ([p], pval p)) (unmasked Tables.raster_A) ∧
  map pt_value (pop_gis identity Tables.raster_A) = map pval (unmasked Tables.raster_A) ∧
  (total_weight (pop_gis identity Tables.raster_A) == raster_mass Tables.raster_A)%Q.
Proof.
  apply (shapes_one_per_cell identity Tables.raster_A).
  intros p q Hp Hq.
  apply list_elem_of_In in Hp, Hq. simpl in Hp, Hq.
  repeat (destruct Hp as [<-|Hp]); try done;
    repeat (destruct Hq as [<-|Hq]); try done.
Defined.

(** The mass that the sampling loses is, shape by shape, the value of the
    shape times the number of its cells beyond the first; with no negative
    cell value the points never weigh more than the raster. *)
Theorem sampled_weight_deficit t (img : list (list (option Q))) :
  (raster_mass img - total_weight (pop_gis t img) ==
   Qsum (map (λ s, (inject_Z (Z.of_nat (length s.1)) - 1) * s.2)%Q (shapes img)))%Q ∧
  (Forall (λ p, (0 <= pval p)%Q) (unmasked img) →
   (total_weight (pop_gis t img) <= raster_mass img)%Q).
Proof.
  assert (raster_mass img - total_weight (pop_gis t img) ==
    Qsum (map (λ s, (inject_Z (Z.of_nat (length s.1)) - 1) * s.2)%Q (shapes img)))%Q as Heq.
  { rewrite raster_mass_regions, total_weight_regions. unfold regions_mass.
    induction (shapes img) as [|s l IH]; simpl; [reflexivity|].
    rewrite <- IH. ring. }
  split; [exact Heq|]. intros Hpos.
  assert (0 <= raster_mass img - total_weight (pop_gis t img))%Q as Hd; [|lra].
  rewrite Heq. apply Qsum_nonneg.
  pose proof (shape_values_nonneg img Hpos) as Hs.
  apply Forall_forall. intros x Hx.
  apply list_elem_of_In, in_map_iff in Hx as (s & <- & Hin).
  apply (proj1 (Forall_forall _ _) Hs). by apply list_elem_of_In.
Qed.

Lemma sampled_weight_deficit_witness :
  (total_weight (pop_gis identity Tables.raster_pair) <= raster_mass Tables.raster_pair)%Q.
Proof.
  apply (proj2 (sampled_weight_deficit identity Tables.raster_pair)).
  repeat constructor; discriminate.
Defined.

(** ** The two join predicates and the pixel centres *)

Section Predicates.

Local Open Scope Q_scope.

Lemma contains_intersects (g : geom) (p : point) :
  contains_point g p = true → intersects_point g p = true.
Proof.
  intros Hc. destruct (cells_at_nonempty p) as [c Hc']. apply list_elem_of_In in Hc'.
  unfold contains_point, intersects_point in *.
  apply existsb_exists. exists c. split; [done|].
  by apply (proj1 (forallb_forall _ _) Hc).
Qed.

Lemma Qfloor_unique (x : Q) (c : Z) :
  inject_Z c <= x → x < inject_Z c + 1 → Qfloor x = c.
Proof.
  intros Hlo Hhi. pose proof (Qfloor_le x) as Flo. pose proof (Qlt_floor x) as Fhi.
  rewrite inject_Z_plus in Fhi. change (inject_Z 1) with 1 in Fhi.
  assert (inject_Z (Qfloor x) < inject_Z (c + 1)) as H1.
  { rewrite inject_Z_plus. change (inject_Z 1) with 1.
    generalize dependent (inject_Z (Qfloor x)). generalize dependent (inject_Z c).
    intros. lra. }
  assert (inject_Z c < inject_Z (Qfloor x + 1)) as H2.
  { rewrite inject_Z_plus. change (inject_Z 1) with 1.
    generalize dependent (inject_Z (Qfloor x)). generalize dependent (inject_Z c).
    intros. lra. }
  rewrite <- Zlt_Qlt in H1, H2. lia.
Qed.

Lemma slots_half (x : Q) (c : Z) : x == inject_Z c + (1 # 2) → slots x = [c].
Proof.
  intros Hx. unfold slots.
  assert (Qfloor x = c) as ->.
  { apply Qfloor_unique; rewrite Hx; generalize (inject_Z c); intros; lra. }
  assert (Qeq_bool (inject_Z c) x = false) as ->; [|done].
  destruct (Qeq_bool (inject_Z c) x) eqn:E; [|done]. apply Qeq_bool_iff in E.
  rewrite Hx in E. exfalso. generalize dependent (inject_Z c). intros. lra.
Qed.

Lemma cells_at_centre (p : pixel) :
  cells_at (centroid identity [p]) = [(pcol p, prow p)].
Proof.
  assert (px (centroid identity [p]) == inject_Z (pcol p) + (1 # 2)) as Hx.
  { unfold centroid, transform, identity, Qsum.
    cbn [px ta tb tc length map fold_right]. change (inject_Z (Z.of_nat 1)) with 1. field. }
  assert (py (centroid identity [p]) == inject_Z (prow p) + (1 # 2)) as Hy.
  { unfold centroid, transform, identity, Qsum.
    cbn [py td te tf length map fold_right]. change (inject_Z (Z.of_nat 1)) with 1. field. }
  unfold cells_at. by rewrite (slots_half _ _ Hx), (slots_half _ _ Hy).
Qed.

End Predicates.

(** A point that the join of line 87 ('contains') counts for a polygon is
    also counted for it by a join like that of line 43 ('intersects'); with
    no negative weight the 'contains' sum of a polygon is at most its
    'intersects' sum. *)
Theorem contains_sum_below_intersects_sum (g : geom) (pop : list pop_point) :
  Forall (λ p, (0 <= pt_value p)%Q) pop →
  (∀ p, p ∈ pop → contains_point g (pt_geometry p) = true →
        intersects_point g (pt_geometry p) = true) ∧
  (matching_weight contains_point g pop <= matching_weight intersects_point g pop)%Q.
Proof.
  intros Hpop. split; [intros p _; apply contains_intersects|].
  induction Hpop as [|p pop Hp _ IH].
  - unfold matching_weight. simpl. discriminate.
  - rewrite !matching_weight_cons.
    destruct (contains_point g (pt_geometry p)) eqn:Ec.
    + rewrite (contains_intersects _ _ Ec). by apply Qplus_le_compat; [apply Qle_refl|].
    + destruct (intersects_point g (pt_geometry p)); [|done].
      rewrite <- (Qplus_0_l (matching_weight contains_point g pop)).
      by apply Qplus_le_compat.
Qed.

Lemma contains_sum_below_intersects_sum_witness :
  (matching_weight contains_point (box 0 0 1 1) (pop_gis identity Tables.raster_pair)
   <= matching_weight intersects_point (box 0 0 1 1) (pop_gis identity Tables.raster_pair))%Q.
Proof.
  apply (contains_sum_below_intersects_sum (box 0 0 1 1)
           (pop_gis identity Tables.raster_pair)).
  repeat constructor; discriminate.
Defined.

(** Under the identity transform the point sampled from a one-cell shape
    is the centre of the cell: a polygon intersects it exactly when the
    cell is part of the polygon, contains it in the same case, and two
    polygons that share no area never both match it. *)
Theorem pixel_centre_in_one_polygon (p : pixel) (g h : geom) :
  let centre := centroid identity [p] in
  intersects_point g centre = bool_decide ((pcol p, prow p) ∈ g) ∧
  contains_point g centre = intersects_point g centre ∧
  (g ∩ h = ∅ → intersects_point g centre = true → intersects_point h centre = false).
Proof.
  intros centre. unfold intersects_point, contains_point, centre.
  rewrite cells_at_centre. simpl. rewrite !orb_false_r, !andb_true_r.
  split; [done|]. split; [done|]. intros Hd Hg.
  apply bool_decide_eq_true in Hg. apply bool_decide_eq_false. set_solver.
Qed.

(** ** A unit inside a single band *)






Lemma pixel_centre_in_one_polygon_witness :
  let centre := centroid identity [ {| prow := 0; pcol := 1; pval := 20 |} ] in
  intersects_point (box 0 0 2 2) centre = true ∧
  intersects_point (box 7 7 1 1) centre = false.
Proof.
  intros centre.
  destruct (pixel_centre_in_one_polygon {| prow := 0; pcol := 1; pval := 20 |}
              (box 0 0 2 2) (box 7 7 1 1)) as (H1 & _ & H3).
  assert (intersects_point (box 0 0 2 2) centre = true) as Hg.
  { unfold centre. rewrite H1. vm_compute. reflexivity. }
  split; [exact Hg|]. apply H3; [vm_compute; reflexivity|exact Hg].
Defined.

(** ** Column names of the per-band table (lines 91-95) *)

(** The renaming never merges two columns: two thresholds get the same
    column name only when they are the same number, and the thresholds
    60, 90 and 120 are the only ones that get a text name. *)
Theorem column_name_distinct (k k' : Q) :
  (column_name k = column_name k' → (k == k')%Q) ∧
  ((∃ name, column_name k = inl name) ↔ (k == 60 ∨ k == 90 ∨ k == 120)%Q).
Proof.
  unfold column_name. split.
  - destruct (Qeq_bool k 60) eqn:A, (Qeq_bool k' 60) eqn:A';
      [|destruct (Qeq_bool k' 90), (Qeq_bool k' 120); discriminate
       |destruct (Qeq_bool k 90), (Qeq_bool k 120); discriminate|].
    { apply Qeq_bool_iff in A, A'. intros _. by rewrite A, A'. }
    destruct (Qeq_bool k 90) eqn:B, (Qeq_bool k' 90) eqn:B';
      [|destruct (Qeq_bool k' 120); discriminate
       |destruct (Qeq_bool k 120); discriminate|].
    { apply Qeq_bool_iff in B, B'. intros _. by rewrite B, B'. }
    destruct (Qeq_bool k 120) eqn:C, (Qeq_bool k' 120) eqn:C'; try discriminate.
    + apply Qeq_bool_iff in C, C'. intros _. by rewrite C, C'.
    + intros [= ->]. reflexivity.
  - split.
    + intros [name H].
      destruct (Qeq_bool k 60) eqn:A; [left; by apply Qeq_bool_iff|].
      destruct (Qeq_bool k 90) eqn:B; [right; left; by apply Qeq_bool_iff|].
      destruct (Qeq_bool k 120) eqn:C; [right; right; by apply Qeq_bool_iff|].
      discriminate.
    + intros [H|[H|H]].
      * rewrite (Qeq_bool_known _ _ 60 true H eq_refl). eauto.
      * rewrite (Qeq_bool_known _ _ 60 false H eq_refl),
          (Qeq_bool_known _ _ 90 true H eq_refl). eauto.
      * rewrite (Qeq_bool_known _ _ 60 false H eq_refl),
          (Qeq_bool_known _ _ 90 false H eq_refl),
          (Qeq_bool_known _ _ 120 true H eq_refl). eauto.
Qed.

Lemma column_name_distinct_witness :
  (column_name 60 = column_name (120 # 2) → (60 == 120 # 2)%Q) ∧
  ∃ name, column_name (120 # 2) = inl name.
Proof.
  destruct (column_name_distinct 60 (120 # 2)) as [H1 _].
  destruct (column_name_distinct (120 # 2) 60) as [_ H2].
  split; [exact H1|]. apply H2. left. reflexivity.
Defined.
